(** * display.py: SVG path parsing and turtle replay of hexadecimal glyphs

    A shallow embedding of [src/display.py]: the classes [PathCommand],
    [PathDrawer], [DigitDisplay] and [DigitsDisplay] with their methods, the
    regular expression [PATH_D_PAT], and the parts of Python's [str],
    [float], [re] and [turtle] that they call.

    - Python [float] values are modelled as exact rationals [Q]: the
      arithmetic the program performs ([*], unary [-], [+], [>], truth
      value) is the exact one; binary64 rounding, infinities and NaN are
      outside the model.
    - Python [str] values are modelled as [string], a sequence of ASCII
      characters (so [\d] is [0-9]); a one-character string such as a
      command letter or a digit is an [ascii].
    - A raised exception is a value of [exn]; code that may raise returns
      [result A]; code that also drives the turtle is a state transformer
      that keeps the turtle as it was when the exception was raised.
    - The files of the font directory are given by the [d] attributes of
      their [<path>] elements; reading XML is outside the model. *)

From Stdlib Require Import QArith ZArith List Bool Ascii String Lia.
From Stdlib Require Import Hexadecimal HexadecimalString.
From stdpp Require Import gmap strings.
Import ListNotations.

Local Open Scope string_scope.
Local Open Scope list_scope.

(** ** Exceptions *)

Inductive exn : Type :=
| IndexError          (* list index out of range *)
| ValueError          (* float() on a malformed literal, or an invalid hex digit *)
| KeyError            (* dict lookup of a missing key *)
| FileNotFoundError.  (* a glyph file is missing *)

Definition result (A : Type) : Type := (exn + A)%type.

Definition ok {A} (a : A) : result A := inr a.
Definition raise {A} (e : exn) : result A := inl e.

Definition rbind {A B} (m : result A) (k : A -> result B) : result B :=
  match m with
  | inl e => inl e
  | inr a => k a
  end.

Declare Scope result_scope.
Delimit Scope result_scope with result.
Notation "'let?' x ':=' m 'in' k" := (rbind m (fun x => k))
  (at level 10, x pattern, m at level 100, k at level 200) : result_scope.

(** [[f(x) for x in xs]] where [f] may raise: the first failure wins. *)
Fixpoint mapR {A B} (f : A -> result B) (xs : list A) : result (list B) :=
  match xs with
  | [] => ok []
  | x :: xs' =>
      (let? y := f x in
       let? ys := mapR f xs' in
       ok (y :: ys))%result
  end.

(** [for x in xs: acc = f(acc, x)] where [f] may raise. *)
Fixpoint foldR {A B} (f : A -> B -> result A) (xs : list B) (acc : A) : result A :=
  match xs with
  | [] => ok acc
  | x :: xs' => (let? acc' := f acc x in foldR f xs' acc')%result
  end.

(** ** Characters and the [str] methods the program calls *)

Module Char.

Definition between (lo hi c : ascii) : bool :=
  (Ascii.leb lo c && Ascii.leb c hi)%bool.

Definition isdigit (c : ascii) : bool := between "0" "9" c.
Definition islower (c : ascii) : bool := between "a" "z" c.
Definition isupper (c : ascii) : bool := between "A" "Z" c.
(** The regex class [[a-zA-Z]]. *)
Definition isalpha (c : ascii) : bool := (islower c || isupper c)%bool.

Definition upper (c : ascii) : ascii :=
  if islower c then ascii_of_nat (nat_of_ascii c - 32) else c.
Definition lower (c : ascii) : ascii :=
  if isupper c then ascii_of_nat (nat_of_ascii c + 32) else c.

(** Whitespace removed by [str.strip()]. *)
Definition isspace (c : ascii) : bool :=
  let n := nat_of_ascii c in
  ((9 <=? n)%nat && (n <=? 13)%nat || (28 <=? n)%nat && (n <=? 32)%nat)%bool.

End Char.

Module Str.

Fixpoint lstrip (s : string) : string :=
  match s with
  | String c s' => if Char.isspace c then lstrip s' else s
  | EmptyString => EmptyString
  end.

Fixpoint rstrip (s : string) : string :=
  match s with
  | String c s' =>
      match rstrip s' with
      | EmptyString => if Char.isspace c then EmptyString else String c EmptyString
      | r => String c r
      end
  | EmptyString => EmptyString
  end.

(** [s.strip()] *)
Definition strip (s : string) : string := rstrip (lstrip s).

(** Splitting at every character satisfying [sep], empty pieces kept:
    [s.split(" ")] for [sep = (= " ")] and [re.split("[, ]", s)] for
    [sep = (in ", ")]. *)
Fixpoint split_at (sep : ascii -> bool) (s : string) : list string :=
  match s with
  | EmptyString => [EmptyString]
  | String c s' =>
      if sep c then EmptyString :: split_at sep s'
      else match split_at sep s' with
           | piece :: pieces => String c piece :: pieces
           | [] => [String c EmptyString]
           end
  end.

End Str.

(** ** [float(p)] on a decimal literal

    Python accepts [[sign] digits [. digits] [e [sign] digits]] with at
    least one digit in the mantissa and, if [e] is there, in the exponent;
    everything else that can reach [float] in this program (the tokens are
    made of the characters of [[\d\.e-]]) raises [ValueError]. *)

Module Float.

Fixpoint span_digits (s : string) : list ascii * string :=
  match s with
  | String c s' =>
      if Char.isdigit c then let '(ds, r) := span_digits s' in (c :: ds, r)
      else ([], s)
  | EmptyString => ([], EmptyString)
  end.

Definition digit_value (c : ascii) : Z := Z.of_nat (nat_of_ascii c - 48).

Definition digits_value (ds : list ascii) : Z :=
  fold_left (fun acc c => 10 * acc + digit_value c)%Z ds 0%Z.

Definition take_sign (s : string) : bool * string :=
  match s with
  | String "-" s' => (true, s')
  | String "+" s' => (false, s')
  | _ => (false, s)
  end.

(** [m * 10^e] as a rational in lowest terms. *)
Definition scale10 (m e : Z) : Q :=
  if (0 <=? e)%Z then Qmake (m * 10 ^ e) 1
  else Qred (Qmake m (Z.to_pos (10 ^ (- e)))).

Definition exponent (s : string) : result Z :=
  match s with
  | EmptyString => ok 0%Z
  | String c s' =>
      if (Ascii.eqb c "e" || Ascii.eqb c "E")%bool then
        let '(neg, s1) := take_sign s' in
        match span_digits s1 with
        | ((_ :: _) as ds, EmptyString) =>
            ok (if neg then - digits_value ds else digits_value ds)%Z
        | _ => raise ValueError
        end
      else raise ValueError
  end.

Definition float (s : string) : result Q :=
  let '(neg, s1) := take_sign s in
  let '(ip, s2) := span_digits s1 in
  let '(fp, s3) :=
    match s2 with
    | String "." s2' => span_digits s2'
    | _ => ([], s2)
    end in
  match ip ++ fp with
  | [] => raise ValueError
  | ds =>
      (let? e := exponent s3 in
       let m := digits_value ds in
       ok (scale10 (if neg then - m else m) (e - Z.of_nat (List.length fp))))%result
  end.

End Float.

(** ** The regular expression [PATH_D_PAT] and [re.findall]

    [(?P<cmd>[a-zA-Z])(?P<params> ?(?:-?[\d\.e-]+[, ]?)+)?]

    Since [-] belongs to the class [[\d\.e-]], one repetition
    [-?[\d\.e-]+[, ]?] consumes a maximal run of class characters and then
    one separator if there is one; the greedy [+] repeats for as long as the
    next character is in the class. Nothing follows the group, so the regex
    engine never has to give characters back. The optional leading space is
    kept only when a class character follows it; otherwise the whole group
    does not take part and [findall] reports it as the empty string.
    [findall_regex] below proves that the scanner written here along these
    lines returns the matches of the expression itself. *)

Module Re.

(** [[\d\.e-]] *)
Definition num_char (c : ascii) : bool :=
  (Char.isdigit c || Ascii.eqb c "." || Ascii.eqb c "e" || Ascii.eqb c "-")%bool.

(** [[, ]] *)
Definition sep_char (c : ascii) : bool :=
  (Ascii.eqb c "," || Ascii.eqb c " ")%bool.

(** The text matched by [(?:-?[\d\.e-]+[, ]?)*] at the start of [s];
    [fresh] tells that a repetition has to start here (we are at the
    start of the group or just behind a separator). *)
Fixpoint span_params (fresh : bool) (s : string) : string :=
  match s with
  | EmptyString => EmptyString
  | String c s' =>
      if num_char c then String c (span_params false s')
      else if (sep_char c && negb fresh)%bool then String c (span_params true s')
      else EmptyString
  end.

(** The group [params] behind the command letter. *)
Definition match_params (s : string) : string :=
  match s with
  | String " " s' =>
      match span_params true s' with
      | EmptyString => EmptyString
      | p => String " " p
      end
  | _ => span_params true s
  end.

(** A match of the pattern at the start of [s]. *)
Definition match_at (s : string) : option (ascii * string) :=
  match s with
  | String c s' => if Char.isalpha c then Some (c, match_params s') else None
  | EmptyString => None
  end.

(** [re.findall(PATH_D_PAT, s)]: the non-overlapping matches from left to
    right, as pairs of the two groups. [skip] counts the characters still
    covered by the previous match. *)
Fixpoint findall_from (skip : nat) (s : string) : list (ascii * string) :=
  match s with
  | EmptyString => []
  | String _ s' =>
      match skip with
      | S k => findall_from k s'
      | O =>
          match match_at s with
          | Some (cmd, params) =>
              (cmd, params) :: findall_from (String.length params) s'
          | None => findall_from 0 s'
          end
      end
  end.

Definition findall (s : string) : list (ascii * string) := findall_from 0 s.

End Re.

(** ** The regular expression as a backtracking engine reads it

    A regular expression of the shape used by [PATH_D_PAT], and the ways in
    which it matches a prefix of a string, in the order in which a
    backtracking engine with greedy operators tries them: the first of the
    list is the match that [re] reports. [Re.findall] above is shown below
    to return these matches ([findall_regex]). *)

Module Regex.

Inductive t : Type :=
| Chars (p : ascii -> bool)   (* one character of a class *)
| Cat (r1 r2 : t)             (* r1 r2 *)
| Opt (r : t)                 (* r? *)
| Plus (r : t).               (* r+ *)

(** A try is the matched text and the rest of the string. [then_ m1 ms] are
    the tries [ms] of what follows a text [m1] already matched. *)
Definition then_ (m1 : string) (ms : list (string * string)) : list (string * string) :=
  map (fun '(m2, s2) => ((m1 ++ m2)%string, s2)) ms.

(** The tries of [r+], [step] being the tries of [r]: behind each try of
    [r], first the tries with more repetitions, then the try that stops
    there. Every repetition takes at least one character here, so that a
    [fuel] above the length of the string is never used up. *)
Fixpoint more (step : string -> list (string * string)) (fuel : nat) (s : string)
    : list (string * string) :=
  match fuel with
  | O => []
  | S fuel' =>
      flat_map (fun '(m1, s1) => then_ m1 (more step fuel' s1) ++ [(m1, s1)]) (step s)
  end.

Fixpoint tries (r : t) (s : string) : list (string * string) :=
  match r with
  | Chars p =>
      match s with
      | String c s' => if p c then [(String c EmptyString, s')] else []
      | EmptyString => []
      end
  | Cat r1 r2 => flat_map (fun '(m1, s1) => then_ m1 (tries r2 s1)) (tries r1 s)
  | Opt r => tries r s ++ [(EmptyString, s)]
  | Plus r => more (tries r) (S (String.length s)) s
  end.

(** [-?[\d\.e-]+[, ]?] *)
Definition repetition : t :=
  Cat (Opt (Chars (Ascii.eqb "-")))
      (Cat (Plus (Chars Re.num_char)) (Opt (Chars Re.sep_char))).

(** [ ?(?:-?[\d\.e-]+[, ]?)+], the group [params] *)
Definition params : t := Cat (Opt (Chars (Ascii.eqb " "))) (Plus repetition).

(** [(?P<cmd>[a-zA-Z])(?P<params> ... )?]: the group [cmd] is the first
    character of the matched text and the group [params] is the rest of it
    (empty when the group takes no part). *)
Definition PATH_D_PAT : t := Cat (Chars Char.isalpha) (Opt params).

(** The texts of the non-overlapping matches of [r] in [s], from left to
    right: the search tries every position not covered by the match before
    it. [skip] counts the characters still covered. *)
Fixpoint search_from (r : t) (skip : nat) (s : string) : list string :=
  match s with
  | EmptyString => []
  | String _ s' =>
      match skip with
      | S k => search_from r k s'
      | O =>
          match hd_error (tries r s) with
          | Some (m, _) => m :: search_from r (String.length m - 1) s'
          | None => search_from r 0 s'
          end
      end
  end.

End Regex.

(** ** The turtle

    The part of [turtle.RawTurtle] that the program uses: the pen position,
    whether the pen is down, the line segments drawn so far (a move with
    the pen down draws one from the old position to the new one), whether
    the cursor is shown and the animation speed. *)

Definition Vec2D : Type := (Q * Q)%type.

Module Turtle.

Record t : Type := mk {
  position : Vec2D;
  isdown : bool;
  lines : list (Vec2D * Vec2D);
  shown : bool;
  animation : Z
}.

(** A turtle as [RawTurtle(screen)] or [reset()] leaves it. *)
Definition fresh : t := mk (0, 0)%Q true [] true 3.

End Turtle.

(** Code that drives the turtle and cannot raise. *)
Definition St (A : Type) : Type := Turtle.t -> A * Turtle.t.

Definition ret {A} (a : A) : St A := fun t => (a, t).
Definition bind {A B} (m : St A) (k : A -> St B) : St B :=
  fun t => let '(a, t') := m t in k a t'.

(** Code that drives the turtle and may raise; the turtle stays as the
    calls before the exception left it. *)
Definition M (A : Type) : Type := Turtle.t -> result A * Turtle.t.

Definition mret {A} (a : A) : M A := fun t => (ok a, t).
Definition mraise {A} (e : exn) : M A := fun t => (raise e, t).
Definition mbind {A B} (m : M A) (k : A -> M B) : M B :=
  fun t =>
    match m t with
    | (inl e, t') => (inl e, t')
    | (inr a, t') => k a t'
    end.
Definition lift {A} (m : St A) : M A := fun t => let '(a, t') := m t in (ok a, t').
Definition lift_result {A} (r : result A) : M A := fun t => (r, t).

Declare Scope st_scope.
Delimit Scope st_scope with st.
Notation "'let!' x ':=' m 'in' k" := (bind m (fun x => k))
  (at level 10, x pattern, m at level 100, k at level 200) : st_scope.

Declare Scope m_scope.
Delimit Scope m_scope with M.
Notation "'let*' x ':=' m 'in' k" := (mbind m (fun x => k))
  (at level 10, x pattern, m at level 100, k at level 200) : m_scope.

(** [for x in xs: acc = f(acc, x)] *)
Fixpoint foldSt {A B} (f : A -> B -> St A) (xs : list B) (acc : A) : St A :=
  match xs with
  | [] => ret acc
  | x :: xs' => (let! acc' := f acc x in foldSt f xs' acc')%st
  end.

Fixpoint foldM {A B} (f : A -> B -> M A) (xs : list B) (acc : A) : M A :=
  match xs with
  | [] => mret acc
  | x :: xs' => (let* acc' := f acc x in foldM f xs' acc')%M
  end.

(** The methods of the turtle. *)
Module T.
Import Turtle.

Definition pos : St Vec2D := fun t => (position t, t).
Definition xcor : St Q := fun t => (fst (position t), t).
Definition ycor : St Q := fun t => (snd (position t), t).

Definition pendown : St unit :=
  fun t => (tt, mk (position t) true (lines t) (shown t) (animation t)).
Definition penup : St unit :=
  fun t => (tt, mk (position t) false (lines t) (shown t) (animation t)).

Definition goto (p : Vec2D) : St unit :=
  fun t =>
    (tt, mk p (isdown t)
            (if isdown t then lines t ++ [(position t, p)] else lines t)
            (shown t) (animation t)).
Definition setx (x : Q) : St unit := fun t => goto (x, snd (position t)) t.
Definition sety (y : Q) : St unit := fun t => goto (fst (position t), y) t.

Definition reset : St unit := fun _ => (tt, fresh).
Definition hideturtle : St unit :=
  fun t => (tt, mk (position t) (isdown t) (lines t) false (animation t)).
Definition speed (s : Z) : St unit :=
  fun t =>
    (tt, mk (position t) (isdown t) (lines t) (shown t)
            (if ((1 <=? s) && (s <=? 10))%Z then s else 0%Z)).

End T.

(** [a > b] on numbers. *)
Definition Qgt_bool (a b : Q) : bool := negb (Qle_bool a b).

(** [m or 0] for an optional number [m]: [None] and zero are false. *)
Definition or_zero (m : option Q) : Q :=
  match m with
  | Some v => if Qeq_bool v 0 then 0%Q else v
  | None => 0%Q
  end.

(** The update [if max_x is None or v > max_x: max_x = v]. *)
Definition bump (max_x : option Q) (v : Q) : option Q :=
  match max_x with
  | None => Some v
  | Some m => if Qgt_bool v m then Some v else Some m
  end.

(** ** [PathCommand] *)

Record PathCommand : Type := mkPathCommand {
  is_abs : bool;
  pendown : bool;
  x : option Q;
  y : option Q
}.

(** [xs[i]] for a non-negative index. *)
Definition index {A} (xs : list A) (i : nat) : result A :=
  match nth_error xs i with
  | Some v => ok v
  | None => raise IndexError
  end.

(** ** [PathDrawer] *)

Module PathDrawer.

(** The turtle [self.t] is the one turtle of the program: it lives in the
    state that the drawing functions thread, and a drawer holds its
    commands. *)
Record t : Type := mk { commands : list PathCommand }.

Definition _add_command (commands : list PathCommand) (cmd : ascii)
    (params : list Q) : result (list PathCommand) :=
  let cmd_type := Char.lower cmd in
  let is_abs := Char.isupper cmd in
  let pendown := negb (Ascii.eqb cmd_type "m") in
  (let? x :=
     if ((0 <? List.length params)%nat && negb (Ascii.eqb cmd_type "v"))%bool
     then (let? v := index params 0 in ok (Some v))
     else ok None in
   let? y :=
     if (1 <? List.length params)%nat then (let? v := index params 1 in ok (Some v))
     else if Ascii.eqb cmd_type "v" then (let? v := index params 0 in ok (Some v))
     else ok None in
   let y := match y with Some v => Some (- v)%Q | None => None end in
   let new_cmd := mkPathCommand is_abs pendown x y in
   ok (commands ++ [new_cmd]))%result.

(** One round of the loop that fills [param_groups]. *)
Definition group_step (param_groups : list (list Q)) (p : Q) : list (list Q) :=
  if (List.length (List.last param_groups []) <? 2)%nat
  then removelast param_groups ++ [List.last param_groups [] ++ [p]]
  else param_groups ++ [[p]].

Definition group_params (all_params : list Q) : list (list Q) :=
  fold_left group_step all_params [[]].

(** The numeric tokens of a parameter text, in order. *)
Definition tokens (params_str : string) : list string :=
  let groups := Str.split_at (Ascii.eqb " ") (Str.strip params_str) in
  List.filter (fun p => negb (String.eqb p EmptyString))
    (flat_map (Str.split_at Re.sep_char) groups).

Definition implicit_cmd (cmd : ascii) : ascii :=
  if Ascii.eqb cmd "m" then "l"%char
  else if Ascii.eqb cmd "M" then "L"%char
  else cmd.

(** [[float(p) * scale for group in groups for p in re.split(...) if p]]
    with [p] ranging over the non-empty pieces. *)
Definition all_params (scale : Q) (params_str : string) : result (list Q) :=
  mapR (fun p => let? f := Float.float p in ok (f * scale)%Q)%result
       (tokens params_str).

(** The body of the loop over the matches. *)
Definition add_match (scale : Q) (commands : list PathCommand)
    (m : ascii * string) : result (list PathCommand) :=
  let '(cmd, params_str) := m in
  (let? all_params := all_params scale params_str in
   let param_groups := group_params all_params in
   let normalized_cmd :=
     if (List.length commands =? 0)%nat then Char.upper cmd else cmd in
   match param_groups with
   | [] => raise IndexError
   | first :: param_groups =>
       let? commands := _add_command commands normalized_cmd first in
       if (0 <? List.length param_groups)%nat
       then foldR (fun cs group => _add_command cs (implicit_cmd cmd) group)
              param_groups commands
       else ok commands
   end)%result.

Definition parse (path_d : string) (scale : Q) : result (list PathCommand) :=
  foldR (add_match scale) (Re.findall path_d) [].

Definition __init__ (path_d : string) (scale : Q) : result t :=
  (let? cs := parse path_d scale in ok (mk cs))%result.

(** *** [PathDrawer.draw] *)

(** The loop body up to and including the move of the turtle; the value
    is the new [first_point]. *)
Definition move (offset : Vec2D) (first_point : option Vec2D)
    (cmd : PathCommand) : St (option Vec2D) :=
  (let! first_point :=
     if pendown cmd
     then (let! _ := T.pendown in
           match first_point with
           | None => let! p := T.pos in ret (Some p)
           | Some _ => ret first_point
           end)
     else (let! _ := T.penup in ret first_point) in
   match x cmd, y cmd with
   | None, None =>
       let! _ := T.goto (match first_point with Some p => p | None => (0, 0)%Q end) in
       ret None
   | Some cx, None =>
       let! nx := if is_abs cmd then ret (cx + fst offset)%Q
                  else (let! c := T.xcor in ret (cx + c)%Q) in
       let! _ := T.setx nx in
       ret first_point
   | None, Some cy =>
       let! ny := if is_abs cmd then ret (cy + snd offset)%Q
                  else (let! c := T.ycor in ret (cy + c)%Q) in
       let! _ := T.sety ny in
       ret first_point
   | Some cx, Some cy =>
       let! nx := if is_abs cmd then ret (cx + fst offset)%Q
                  else (let! c := T.xcor in ret (cx + c)%Q) in
       let! ny := if is_abs cmd then ret (cy + snd offset)%Q
                  else (let! c := T.ycor in ret (cy + c)%Q) in
       let! _ := T.goto (nx, ny) in
       ret first_point
   end)%st.

(** The whole loop body. *)
Definition body (offset : Vec2D) (st : option Vec2D * option Q)
    (cmd : PathCommand) : St (option Vec2D * option Q) :=
  let '(first_point, max_x) := st in
  (let! first_point := move offset first_point cmd in
   let! xc := T.xcor in
   ret (first_point, bump max_x xc))%st.

(** [self.commands[-1]] is the element at [len(self.commands) - 1], and an
    [IndexError] on the empty list. *)
Definition draw (self : t) (offset : Vec2D) : M Q :=
  let commands := commands self in
  (let* last := lift_result (index commands (List.length commands - 1)) in
   let* st := lift (foldSt (body offset) commands (None, y last)) in
   mret (or_zero (snd st)))%M.

End PathDrawer.


(** ** [DigitDisplay] *)

Module DigitDisplay.

Record t : Type := mk { paths : list PathDrawer.t; next_y : option Q }.

(** [path_d_strings] are the [d] attributes of the [<path>] elements of
    the glyph file, in document order. *)
Definition __init__ (path_d_strings : list string) (scale : Q) : result t :=
  (let? ps := mapR (fun d => PathDrawer.__init__ d scale) path_d_strings in
   ok (mk ps None))%result.

Definition draw (self : t) (x_offset : Q) (global_offset : Vec2D) : M Q :=
  (let* max_x :=
     foldM (fun max_x path =>
              let* v := PathDrawer.draw path (x_offset, snd global_offset) in
              mret (bump max_x v))
           (paths self) None in
   mret (or_zero max_x))%M.

End DigitDisplay.

(** ** [DigitsDisplay] *)

Module DigitsDisplay.

(** [[c for c in string.hexdigits if not c.islower()] + ['x']] *)
Definition hexdigits : string := "0123456789abcdefABCDEF".
Definition DIGIT_CHARS : list ascii :=
  List.filter (fun c => negb (Char.islower c)) (list_ascii_of_string hexdigits)
    ++ ["x"%char].
Definition DIGIT_MARGIN : Q := 10.

Record t : Type := mk {
  speed : Z;
  scale : Q;
  digit_drawers : gmap ascii DigitDisplay.t
}.

(** [font_dir c] is the content of the file [c.svg] of the font
    directory, if there is one. *)
Definition __init__ (font_dir : ascii -> option (list string)) (scale : Q)
    (speed : Z) : result t :=
  (let? drawers :=
     foldR (fun (drawers : gmap ascii DigitDisplay.t) char =>
              match font_dir char with
              | None => raise FileNotFoundError
              | Some ds =>
                  let? d := DigitDisplay.__init__ ds scale in
                  ok (<[char := d]> drawers)
              end)
           DIGIT_CHARS ∅ in
   ok (mk speed scale drawers))%result.

(** The body of the loop over the characters. *)
Definition draw_digit (self : t) (x_offset : Q) (digit : ascii) : M Q :=
  (let* digit :=
     match digit_drawers self !! digit with
     | None =>
         match digit_drawers self !! Char.upper digit with
         | None => mraise ValueError
         | Some _ => mret (Char.upper digit)
         end
     | Some _ => mret digit
     end in
   let* drawer :=
     match digit_drawers self !! digit with
     | Some d => mret d
     | None => mraise KeyError
     end in
   let* v := DigitDisplay.draw drawer x_offset (0, 0)%Q in
   mret (v + DIGIT_MARGIN)%Q)%M.

Definition draw (self : t) (digits_str : string) (offset : Vec2D) : M unit :=
  (let* _ := lift T.reset in
   let* _ := lift (T.speed (speed self)) in
   let* _ := lift T.hideturtle in
   let* _ := foldM (draw_digit self) (list_ascii_of_string digits_str) (fst offset) in
   mret tt)%M.

End DigitsDisplay.

(** ** The script

    The statements under [if __name__ == "__main__"] that call the display:
    the arguments are what [argparse] and the screen give. *)

Module Main.

(** [-(screen.window_width() / 2) + 20] *)
Definition x_start (window_width : Q) : Q := (- (window_width / 2) + 20)%Q.

(** [int(n)] for a float [n]: the integer part, rounding toward zero. *)
Definition int (n : Q) : Z := Z.quot (Qnum n) (Zpos (Qden n)).

(** [hex(z)]: a minus sign for a negative number, [0x], and the lowercase
    hexadecimal digits of the absolute value. *)
Definition hex (z : Z) : string :=
  ((if (z <? 0)%Z then "-" else EmptyString) ++ "0x" ++
   NilZero.string_of_uint (N.to_hex_uint (Z.abs_N z)))%string.

(** The two statements of the loop behind [if n is None: break]. *)
Definition show_number (display : DigitsDisplay.t) (window_width : Q) (n : Q) : M unit :=
  let n_hex_str := hex (int n) in
  DigitsDisplay.draw display n_hex_str (x_start window_width, 0%Q).

(** The branch [if args.debug_font]. *)
Definition debug_font (display : DigitsDisplay.t) (window_width : Q) : M unit :=
  DigitsDisplay.draw display (string_of_list_ascii DigitsDisplay.DIGIT_CHARS)
    (x_start window_width, 0%Q).

(** The loop [while True], [answers] being what [screen.numinput] returns
    one call after the other ([None] when the dialog is cancelled); an
    exception ends the loop. *)
Fixpoint loop (display : DigitsDisplay.t) (window_width : Q)
    (answers : list (option Q)) : M unit :=
  match answers with
  | [] => mret tt
  | None :: _ => mret tt
  | Some n :: answers' =>
      (let* _ := show_number display window_width n in
       loop display window_width answers')%M
  end.

End Main.

(** ** Notions used to state the properties *)

(** The maximal prefix of [s] made of characters of the class [p], and what
    is behind it. *)
Fixpoint run (p : ascii -> bool) (s : string) : string * string :=
  match s with
  | String c s' =>
      if p c then let '(r, t) := run p s' in (String c r, t) else (EmptyString, s)
  | EmptyString => (EmptyString, EmptyString)
  end.

(** The first try of one repetition [-?[\d\.e-]+[, ]?]. *)
Definition rep_head (s : string) : option (string * string) :=
  match run Re.num_char s with
  | (EmptyString, _) => None
  | (r, t) =>
      Some match t with
           | String c t' =>
               if Re.sep_char c then ((r ++ String c EmptyString)%string, t') else (r, t)
           | EmptyString => (r, EmptyString)
           end
  end.

(** [Some p] for a non-empty text [p]. *)
Definition nonempty_text (p : string) : option string :=
  match p with
  | EmptyString => None
  | _ => Some p
  end.

(** The groups as a recursive function: pairs, and a single value at the
    end when the count is odd. *)
Fixpoint pairs (ps : list Q) : list (list Q) :=
  match ps with
  | [] => []
  | [p] => [[p]]
  | p :: q :: ps' => [p; q] :: pairs ps'
  end.

(** The abscissa of the turtle behind each command of the replay. *)
Fixpoint reached (offset : Vec2D) (first_point : option Vec2D)
    (cmds : list PathCommand) (t : Turtle.t) : list Q :=
  match cmds with
  | [] => []
  | c :: cs =>
      let '(first_point', t') := PathDrawer.move offset first_point c t in
      fst (Turtle.position t') :: reached offset first_point' cs t'
  end.

(** [r] is the greatest number of [l] (up to [==], as [>] compares). *)
Definition is_maximum (r : Q) (l : list Q) : Prop :=
  (forall v, In v l -> (v <= r)%Q) /\ exists v, In v l /\ (r == v)%Q.

Definition seed_values (seed : option Q) : list Q :=
  match seed with
  | Some v => [v]
  | None => []
  end.

(** The characters that [DigitsDisplay.draw] accepts. *)
Definition accepted (c : ascii) : bool :=
  existsb (Ascii.eqb c) (list_ascii_of_string "0123456789ABCDEFabcdefx").

(** A font whose every glyph is the stroke ["M0,0H20"], and its display at
    scale 1. *)
Definition example_font (c : ascii) : option (list string) := Some ["M0,0H20"].

Definition example_display : DigitsDisplay.t :=
  match DigitsDisplay.__init__ example_font 1 0 with
  | inr self => self
  | inl _ => DigitsDisplay.mk 0 1 ∅
  end.

(** The lineto letter of the case of [c]. *)
Definition lineto_of (c : ascii) : ascii :=
  if Char.isupper c then "L"%char else "l"%char.

(** The letters that are neither a moveto nor a vertical line. *)
Definition lineto_like (c : ascii) : bool :=
  (Char.isalpha c && negb (Ascii.eqb (Char.lower c) "m")
   && negb (Ascii.eqb (Char.lower c) "v"))%bool.


(** The same renaming in a path string. Lower case [e] is left alone: it
    belongs to the class [[\d\.e-]], so that behind a command letter or a
    number the pattern reads it as parameter text. *)
Definition respell_char (c : ascii) : ascii :=
  if (lineto_like c && negb (Ascii.eqb c "e"))%bool then lineto_of c else c.

Fixpoint respell (s : string) : string :=
  match s with
  | EmptyString => EmptyString
  | String c s' => String (respell_char c) (respell s')
  end.


(** ** Further notions used to state properties *)

(** The number of parameter groups made of [n] numbers. *)
Definition group_count (n : nat) : nat := Nat.max 1 (Nat.div2 (S n)).

(** [letter] is a moveto. *)
Definition is_moveto (letter : ascii) : bool := Ascii.eqb (Char.lower letter) "m".

(** The values that the paths of a glyph return, drawn one behind the
    other. *)
Fixpoint path_results (offset : Vec2D) (paths : list PathDrawer.t) (t : Turtle.t)
    : list Q :=
  match paths with
  | [] => []
  | p :: ps =>
      match PathDrawer.draw p offset t with
      | (inr v, t') => v :: path_results offset ps t'
      | (inl _, _) => []
      end
  end.

(** [a-f] in upper case, any other character unchanged. *)
Definition hex_upper (c : ascii) : ascii :=
  if existsb (Ascii.eqb c) (list_ascii_of_string "abcdef") then Char.upper c else c.

(** The turtle that [DigitsDisplay.draw] starts the glyphs from. *)
Definition cleared (speed : Z) : Turtle.t :=
  Turtle.mk (0, 0)%Q true [] false (if ((1 <=? speed) && (speed <=? 10))%Z then speed else 0%Z).

(** [m] keeps the cursor and the speed, and only adds line segments. *)
Definition keeps {A} (m : M A) : Prop :=
  forall (t t' : Turtle.t) (r : result A),
    m t = (r, t') ->
    Turtle.shown t' = Turtle.shown t /\
    Turtle.animation t' = Turtle.animation t /\
    exists new, Turtle.lines t' = Turtle.lines t ++ new.

(** Whether a glyph file can be loaded. *)
Definition loadable (font_dir : ascii -> option (list string)) (scale : Q) (c : ascii) : Prop :=
  exists ds, font_dir c = Some ds /\
    List.Forall (fun d => exists cs, PathDrawer.parse d scale = inr cs) ds.

(** The answers before the first cancel or the first number below zero. *)
Definition drawable (a : option Q) : Prop :=
  exists n, a = Some n /\ (0 <= Main.int n)%Z.


(** [q] is the point [p] moved by [o] (coordinates compared as numbers). *)
Definition shifted (o p q : Vec2D) : Prop :=
  (fst q == fst p + fst o)%Q /\ (snd q == snd p + snd o)%Q.

Definition shifted_opt (o : Vec2D) (p q : option Vec2D) : Prop :=
  match p, q with
  | Some p, Some q => shifted o p q
  | None, None => True
  | _, _ => False
  end.

Definition shifted_segment (o : Vec2D) (s1 s2 : Vec2D * Vec2D) : Prop :=
  shifted o (fst s1) (fst s2) /\ shifted o (snd s1) (snd s2).

(** A pen-up command without coordinates: [m] or [M] alone. *)
Definition bare_moveto (c : PathCommand) : bool :=
  match pendown c, x c, y c with
  | false, None, None => true
  | _, _, _ => false
  end.

(** An absolute command that is not a pen-up command without coordinates. *)
Definition anchored (c : PathCommand) : bool := (is_abs c && negb (bare_moveto c))%bool.

(** * Properties *)

(** ** Auxiliary facts: the [result] and turtle monads *)

Lemma rbind_inr {A B} (m : result A) (k : A -> result B) (b : B) :
  rbind m k = inr b -> exists a, m = inr a /\ k a = inr b.
Proof. destruct m as [e | a]; simpl; [discriminate | eauto]. Qed.


Lemma mapR_In {A B} (f : A -> result B) (xs : list A) (ys : list B) (b : B) :
  mapR f xs = inr ys -> In b ys -> exists a, In a xs /\ f a = inr b.
Proof.
  revert ys; induction xs as [| a xs IH]; intros ys; simpl.
  - intros [= <-] [].
  - intros H. apply rbind_inr in H as (v & Hv & H).
    apply rbind_inr in H as (vs & Hvs & [= <-]).
    intros [<- | Hin]; [now eauto |].
    destruct (IH _ Hvs Hin) as (a' & ? & ?); eauto.
Qed.


Lemma mapR_length {A B} (f : A -> result B) (xs : list A) (ys : list B) :
  mapR f xs = inr ys -> List.length ys = List.length xs.
Proof.
  revert ys; induction xs as [| a xs IH]; intros ys; simpl.
  - now intros [= <-].
  - intros H. apply rbind_inr in H as (v & _ & H).
    apply rbind_inr in H as (vs & Hvs & [= <-]). simpl. now rewrite (IH _ Hvs).
Qed.

(** ** Auxiliary facts: characters *)

Ltac ascii_cases c := destruct c as [[] [] [] [] [] [] [] []].

Lemma upper_isupper (c : ascii) :
  Char.isalpha c = true -> Char.isupper (Char.upper c) = true.
Proof. ascii_cases c; vm_compute; intros H; first [reflexivity | discriminate H]. Qed.

Lemma lower_upper (c : ascii) : Char.lower (Char.upper c) = Char.lower c.
Proof. ascii_cases c; reflexivity. Qed.

(** ** Auxiliary facts: the scanner *)

Lemma findall_from_alpha (k : nat) (s : string) :
  Forall (fun m => Char.isalpha (fst m) = true) (Re.findall_from k s).
Proof.
  revert k; induction s as [| c s IH]; intros k; simpl; [constructor |].
  destruct k as [| k]; [| apply IH].
  destruct (Char.isalpha c) eqn:Hc; [| apply IH].
  constructor; [exact Hc | apply IH].
Qed.

Lemma findall_alpha (s : string) :
  Forall (fun m => Char.isalpha (fst m) = true) (Re.findall s).
Proof. apply findall_from_alpha. Qed.

(** ** Auxiliary facts: the scanner and the regular expression *)

Section RegexFacts.
Import Regex.

Lemma hd_then (m : string) (ms : list (string * string)) :
  hd_error (then_ m ms) =
  match hd_error ms with
  | Some (m2, s2) => Some ((m ++ m2)%string, s2)
  | None => None
  end.
Proof. destruct ms as [| [m2 s2] ms]; reflexivity. Qed.

Lemma hd_app {A} (l1 l2 : list A) :
  hd_error (l1 ++ l2) = match hd_error l1 with Some a => Some a | None => hd_error l2 end.
Proof. destruct l1; reflexivity. Qed.

Lemma append_nil_r (s : string) : (s ++ EmptyString)%string = s.
Proof.
  induction s as [| c s IH]; [reflexivity |].
  rewrite <- IH at 2. reflexivity.
Qed.

Lemma run_nil (p : ascii -> bool) (s t : string) :
  run p s = (EmptyString, t) -> t = s.
Proof.
  destruct s as [| c s]; simpl; [now intros [= <-] |].
  destruct (p c); [| now intros [= <-]]. destruct (run p s); discriminate.
Qed.

Lemma hd_more (step : string -> list (string * string)) (fuel : nat) (s : string) :
  hd_error (more step (S fuel) s) =
  match hd_error (step s) with
  | None => None
  | Some (m1, s1) =>
      match hd_error (more step fuel s1) with
      | Some (m2, s2) => Some ((m1 ++ m2)%string, s2)
      | None => Some (m1, s1)
      end
  end.
Proof.
  cbn [more]. destruct (step s) as [| [m1 s1] l]; [reflexivity |].
  cbn [flat_map hd_error]. rewrite !hd_app, hd_then.
  destruct (hd_error (more step fuel s1)) as [[m2 s2] |]; reflexivity.
Qed.

Lemma hd_plus_chars (p : ascii -> bool) (fuel : nat) :
  forall s, (String.length s < fuel)%nat ->
    hd_error (more (tries (Chars p)) fuel s) =
    match run p s with
    | (EmptyString, _) => None
    | (r, t) => Some (r, t)
    end.
Proof.
  induction fuel as [| fuel IH]; intros s Hlen; [lia |].
  rewrite hd_more. destruct s as [| c s]; [reflexivity |].
  cbn [tries run]. destruct (p c); [| reflexivity].
  cbn [hd_error]. simpl in Hlen. rewrite IH by lia.
  destruct (run p s) as [[| c' r] t] eqn:E; [| reflexivity].
  apply run_nil in E. now subst.
Qed.

Lemma tries_cat (r1 r2 : t) (s : string) :
  tries (Cat r1 r2) s = flat_map (fun '(m1, s1) => then_ m1 (tries r2 s1)) (tries r1 s).
Proof. reflexivity. Qed.

Lemma tries_opt (r : t) (s : string) :
  tries (Opt r) s = tries r s ++ [(EmptyString, s)].
Proof. reflexivity. Qed.

Lemma tries_plus (r : t) (s : string) :
  tries (Plus r) s = more (tries r) (S (String.length s)) s.
Proof. reflexivity. Qed.

Lemma tries_chars (p : ascii -> bool) (s : string) :
  tries (Chars p) s =
  match s with
  | String c s' => if p c then [(String c EmptyString, s')] else []
  | EmptyString => []
  end.
Proof. reflexivity. Qed.

(** The first try of a concatenation, when the first try of its left part
    can be continued. *)
Lemma hd_cat (r1 r2 : t) (s : string) :
  hd_error (tries (Cat r1 r2) s) =
  match tries r1 s with
  | [] => None
  | (m1, s1) :: l =>
      match hd_error (tries r2 s1) with
      | Some (m2, s2) => Some ((m1 ++ m2)%string, s2)
      | None => hd_error (flat_map (fun '(m1, s1) => then_ m1 (tries r2 s1)) l)
      end
  end.
Proof.
  rewrite tries_cat. destruct (tries r1 s) as [| [m1 s1] l]; [reflexivity |].
  cbn [flat_map]. rewrite hd_app, hd_then.
  destruct (hd_error (tries r2 s1)) as [[m2 s2] |]; reflexivity.
Qed.

Lemma hd_number (s : string) :
  hd_error (tries (Cat (Plus (Chars Re.num_char)) (Opt (Chars Re.sep_char))) s) = rep_head s.
Proof.
  rewrite hd_cat, tries_plus. unfold rep_head.
  pose proof (hd_plus_chars Re.num_char (S (String.length s)) s (Nat.lt_succ_diag_r _)) as H.
  destruct (more (tries (Chars Re.num_char)) (S (String.length s)) s) as [| [m1 s1] l];
    cbn [hd_error] in H.
  - destruct (run Re.num_char s) as [[| c r] t]; [reflexivity | discriminate].
  - destruct (run Re.num_char s) as [[| c r] t]; [discriminate |].
    injection H as -> ->. rewrite tries_opt, hd_app, tries_chars.
    destruct t as [| c' t']; cbn [hd_error]; [now rewrite append_nil_r |].
    destruct (Re.sep_char c'); cbn [hd_error]; [reflexivity | now rewrite append_nil_r].
Qed.

Lemma rep_head_minus (s : string) :
  rep_head (String "-" s) =
  match rep_head s with
  | Some (m, t) => Some (String "-" m, t)
  | None => rep_head (String "-" s)
  end.
Proof.
  destruct (rep_head s) as [[m t] |] eqn:E; [| reflexivity].
  unfold rep_head in *. cbn [run]. change (Re.num_char "-") with true. cbv iota.
  destruct (run Re.num_char s) as [[| c r] t0]; [discriminate |].
  destruct t0 as [| c' t']; [now injection E as <- <- |].
  destruct (Re.sep_char c'); now injection E as <- <-.
Qed.

Lemma hd_repetition (s : string) : hd_error (tries repetition s) = rep_head s.
Proof.
  unfold repetition. rewrite hd_cat, tries_opt, tries_chars.
  destruct s as [| c s]; [cbn [app]; rewrite hd_number; reflexivity |].
  destruct (Ascii.eqb_spec "-"%char c) as [<- | Hne]; cbn [app].
  - rewrite hd_number, rep_head_minus.
    destruct (rep_head s) as [[m t] |]; [reflexivity |].
    cbn [flat_map]. rewrite hd_app, hd_then, hd_number.
    destruct (rep_head (String "-" s)) as [[m t] |]; reflexivity.
  - rewrite hd_number. destruct (rep_head (String c s)) as [[m t] |]; reflexivity.
Qed.

Lemma run_rest (p : ascii -> bool) (s : string) :
  match snd (run p s) with
  | String c _ => p c = false
  | EmptyString => True
  end.
Proof.
  induction s as [| c s IH]; simpl; [exact I |].
  destruct (p c) eqn:E; [| exact E].
  destruct (run p s) as [r t]. exact IH.
Qed.

Lemma run_length (p : ascii -> bool) (s : string) :
  (String.length (fst (run p s)) + String.length (snd (run p s)) = String.length s)%nat.
Proof.
  induction s as [| c s IH]; simpl; [reflexivity |].
  destruct (p c); [| reflexivity].
  destruct (run p s) as [r t]. simpl in *. lia.
Qed.

Lemma span_params_stop (s : string) :
  match s with String c _ => Re.num_char c = false | EmptyString => True end ->
  Re.span_params true s = EmptyString.
Proof.
  destruct s as [| c s]; [reflexivity |]. simpl. intros ->.
  now rewrite andb_false_r.
Qed.

(** [span_params] along the maximal run of class characters. *)
Lemma span_params_run (s : string) :
  forall fresh : bool,
    match run Re.num_char s with
    | (EmptyString, _) => True
    | (r, t) =>
        Re.span_params fresh s =
        (r ++ match t with
              | String c t' =>
                  if Re.sep_char c then String c (Re.span_params true t') else EmptyString
              | EmptyString => EmptyString
              end)%string
    end.
Proof.
  induction s as [| c s IH]; intros fresh; [exact I |].
  cbn [run Re.span_params].
  destruct (Re.num_char c) eqn:Ec; [| exact I].
  specialize (IH false).
  destruct (run Re.num_char s) as [[| c' r] t] eqn:E.
  - pose proof (run_nil _ _ _ E). subst t.
    change ((String c EmptyString ++ ?x)%string) with (String c x).
    f_equal. destruct s as [| c0 s0]; [reflexivity |].
    cbn [Re.span_params]. cbn [run] in E.
    destruct (Re.num_char c0) eqn:Ec0.
    + destruct (run Re.num_char s0); discriminate.
    + cbn [negb]. now rewrite andb_true_r.
  - rewrite IH. reflexivity.
Qed.

Lemma rep_head_span (s : string) :
  Re.span_params true s =
  match rep_head s with
  | Some (m1, s1) => (m1 ++ Re.span_params true s1)%string
  | None => EmptyString
  end.
Proof.
  unfold rep_head.
  pose proof (span_params_run s true) as H.
  pose proof (run_rest Re.num_char s) as Hrest.
  destruct (run Re.num_char s) as [[| c r] t] eqn:E.
  - apply run_nil in E. subst t. cbn [snd] in Hrest. now apply span_params_stop.
  - rewrite H. cbn [snd] in Hrest. destruct t as [| c' t'].
    + reflexivity.
    + destruct (Re.sep_char c') eqn:Es.
      * change (String c r ++ String c' EmptyString)%string
          with (String c (r ++ String c' EmptyString)%string).
        change (String c ?a ++ ?b)%string with (String c (a ++ b)%string).
        f_equal. clear. induction r as [| a r IH]; [reflexivity |].
        change (String a ?x ++ ?y)%string with (String a (x ++ y)%string).
        now rewrite IH.
      * rewrite (span_params_stop (String c' t') Hrest). reflexivity.
Qed.

Lemma rep_head_shorter (s m1 s1 : string) :
  rep_head s = Some (m1, s1) ->
  m1 <> EmptyString /\ (String.length s1 < String.length s)%nat.
Proof.
  unfold rep_head. pose proof (run_length Re.num_char s) as Hlen.
  destruct (run Re.num_char s) as [[| c r] t]; [discriminate |].
  cbn [fst snd String.length] in Hlen.
  destruct t as [| c' t'].
  - intros [= <- <-]. split; [discriminate | simpl; lia].
  - destruct (Re.sep_char c'); intros [= <- <-]; (split; [discriminate | simpl in *; lia]).
Qed.

Lemma hd_plus_repetition (fuel : nat) :
  forall s, (String.length s < fuel)%nat ->
    option_map fst (hd_error (more (tries repetition) fuel s)) =
    nonempty_text (Re.span_params true s).
Proof.
  induction fuel as [| fuel IH]; intros s Hlen; [lia |].
  rewrite hd_more, hd_repetition, rep_head_span.
  destruct (rep_head s) as [[m1 s1] |] eqn:E; [| reflexivity].
  apply rep_head_shorter in E as [Hm1 Hs1].
  specialize (IH s1 ltac:(lia)).
  destruct m1 as [| c m1]; [contradiction |].
  destruct (hd_error (more (tries repetition) fuel s1)) as [[m2 s2] |];
    cbn [option_map fst] in *.
  - destruct (Re.span_params true s1); [discriminate |]. injection IH as ->. reflexivity.
  - destruct (Re.span_params true s1); [| discriminate]. now rewrite append_nil_r.
Qed.

Lemma hd_params (s : string) :
  option_map fst (hd_error (tries params s)) = nonempty_text (Re.match_params s).
Proof.
  unfold params. rewrite hd_cat, tries_opt, tries_chars.
  pose proof (fun s => hd_plus_repetition (S (String.length s)) s (Nat.lt_succ_diag_r _))
    as Hplus.
  destruct s as [| c s].
  - reflexivity.
  - destruct (Ascii.eqb_spec " "%char c) as [<- | Hne]; cbn [app].
    + cbn [Re.match_params]. pose proof (Hplus s) as Hs. rewrite tries_plus.
      destruct (hd_error (more (tries repetition) (S (String.length s)) s)) as [[m t] |];
        cbn [option_map fst] in Hs.
      * destruct (Re.span_params true s); [discriminate |]. injection Hs as ->.
        reflexivity.
      * destruct (Re.span_params true s); [| discriminate].
        cbn [flat_map]. rewrite hd_app, hd_then, tries_plus.
        pose proof (Hplus (String " " s)) as Hplus0.
        change (Re.span_params true (String " " s)) with EmptyString in Hplus0.
        destruct (hd_error _) as [[m t] |]; [discriminate | reflexivity].
    + rewrite tries_plus.
      replace (Re.match_params (String c s)) with (Re.span_params true (String c s)).
      * rewrite <- (Hplus (String c s)).
        destruct (hd_error _) as [[m t] |]; reflexivity.
      * unfold Re.match_params.
        destruct c as [[] [] [] [] [] [] [] []]; try reflexivity.
        exfalso. apply Hne. reflexivity.
Qed.

(** The text of the first match of [PATH_D_PAT] at the start of [s], as a
    backtracking engine finds it, is the letter and the parameter text that
    [Re.match_at] returns. *)
Lemma match_at_regex (s : string) :
  option_map fst (hd_error (tries PATH_D_PAT s)) =
  option_map (fun '(cmd, params) => String cmd params) (Re.match_at s).
Proof.
  unfold PATH_D_PAT. rewrite hd_cat, tries_chars. unfold Re.match_at.
  destruct s as [| c s]; [reflexivity |].
  destruct (Char.isalpha c); [| reflexivity].
  rewrite tries_opt, hd_app. pose proof (hd_params s) as H.
  destruct (hd_error (tries params s)) as [[m t] |]; cbn [option_map fst] in *.
  - destruct (Re.match_params s); [discriminate |]. injection H as ->. reflexivity.
  - destruct (Re.match_params s); [reflexivity | discriminate].
Qed.

(** X1. [Re.findall] returns, as pairs of groups, the matches that the
    search with the backtracking matcher finds for [PATH_D_PAT]. *)
Lemma findall_regex (s : string) :
  map (fun '(cmd, params) => String cmd params) (Re.findall s) =
  search_from PATH_D_PAT 0 s.
Proof.
  unfold Re.findall. generalize 0%nat.
  induction s as [| c s IH]; intros skip; [reflexivity |].
  cbn [Re.findall_from search_from]. destruct skip as [| k]; [| apply IH].
  pose proof (match_at_regex (String c s)) as H.
  destruct (hd_error (tries PATH_D_PAT (String c s))) as [[m t] |];
    destruct (Re.match_at (String c s)) as [[cmd params] |];
    cbn [option_map fst] in H; try discriminate H.
  - injection H as ->. cbn [map]. f_equal.
    replace (String.length (String cmd params) - 1)%nat with (String.length params)
      by (simpl; lia).
    apply IH.
  - apply IH.
Qed.

End RegexFacts.

(** ** Auxiliary facts: [_add_command] *)

Section AddCommand.
Import PathDrawer.

(** The command that [_add_command] appends, by the number of parameters. *)
Lemma add_command_nil (cs : list PathCommand) (cmd : ascii) :
  _add_command cs cmd [] =
  if Ascii.eqb (Char.lower cmd) "v" then raise IndexError
  else ok (cs ++ [mkPathCommand (Char.isupper cmd)
                    (negb (Ascii.eqb (Char.lower cmd) "m")) None None]).
Proof. unfold _add_command; simpl. now destruct (Ascii.eqb (Char.lower cmd) "v"). Qed.

Lemma add_command_one (cs : list PathCommand) (cmd : ascii) (p : Q) :
  _add_command cs cmd [p] =
  ok (cs ++ [mkPathCommand (Char.isupper cmd)
               (negb (Ascii.eqb (Char.lower cmd) "m"))
               (if Ascii.eqb (Char.lower cmd) "v" then None else Some p)
               (if Ascii.eqb (Char.lower cmd) "v" then Some (- p)%Q else None)]).
Proof. unfold _add_command; simpl. now destruct (Ascii.eqb (Char.lower cmd) "v"). Qed.

Lemma add_command_two (cs : list PathCommand) (cmd : ascii) (p q : Q) (ps : list Q) :
  _add_command cs cmd (p :: q :: ps) =
  ok (cs ++ [mkPathCommand (Char.isupper cmd)
               (negb (Ascii.eqb (Char.lower cmd) "m"))
               (if Ascii.eqb (Char.lower cmd) "v" then None else Some p)
               (Some (- q)%Q)]).
Proof. unfold _add_command; simpl. now destruct (Ascii.eqb (Char.lower cmd) "v"). Qed.

(** [_add_command] appends exactly one command, which does not depend on
    the commands already there. *)
Lemma add_command_inr (cs : list PathCommand) (cmd : ascii) (params : list Q)
    (cs' : list PathCommand) :
  _add_command cs cmd params = inr cs' <->
  exists c, _add_command [] cmd params = inr [c] /\ cs' = cs ++ [c].
Proof.
  destruct params as [| p [| q ps]];
    rewrite ?add_command_nil, ?add_command_one, ?add_command_two;
    rewrite ?(add_command_nil []), ?(add_command_one []), ?(add_command_two []);
    try destruct (Ascii.eqb (Char.lower cmd) "v"); simpl; unfold ok, raise;
    (split; [intros [= <-]; eauto | intros (c & [= <-] & ->); reflexivity]).
Qed.


Lemma add_command_fields (cmd : ascii) (params : list Q) (c : PathCommand) :
  _add_command [] cmd params = inr [c] ->
  is_abs c = Char.isupper cmd /\
  pendown c = negb (Ascii.eqb (Char.lower cmd) "m") /\
  (forall v, y c = Some v -> exists p, In p params /\ v = (- p)%Q).
Proof.
  destruct params as [| p [| q ps]];
    rewrite ?add_command_nil, ?add_command_one, ?add_command_two;
    destruct (Ascii.eqb (Char.lower cmd) "v"); unfold ok, raise; simpl;
    intros H; inversion H; subst c; clear H; simpl.
  all: split; [reflexivity | split; [reflexivity |]].
  all: intros v Hv; inversion Hv; subst v.
  all: eexists; split; [| reflexivity]; simpl; auto.
Qed.

End AddCommand.

(** ** Auxiliary facts: the parameter groups *)

Section Groups.
Import PathDrawer.

Lemma list_ind2 {A} (P : list A -> Prop) :
  P [] -> (forall a, P [a]) -> (forall a b l, P l -> P (a :: b :: l)) ->
  forall l, P l.
Proof.
  intros H0 H1 H2 l.
  enough (P l /\ forall a, P (a :: l)) by tauto.
  induction l as [| b l [IHl IHbl]]; split; auto.
Qed.

Lemma group_step_last (gs : list (list Q)) (g : list Q) (p : Q) :
  group_step (gs ++ [g]) p =
  if (List.length g <? 2)%nat then gs ++ [g ++ [p]] else (gs ++ [g]) ++ [[p]].
Proof. unfold group_step. now rewrite last_last, removelast_last. Qed.

Lemma fold_group_step (ps : list Q) :
  forall gs : list (list Q),
    fold_left group_step ps (gs ++ [[]]) =
      gs ++ match ps with [] => [[]] | _ => pairs ps end
    /\ (forall a, fold_left group_step ps (gs ++ [[a]]) = gs ++ pairs (a :: ps))
    /\ (forall a b, fold_left group_step ps (gs ++ [[a; b]]) = gs ++ [a; b] :: pairs ps).
Proof.
  induction ps as [| p ps IH]; intros gs.
  - repeat split; reflexivity.
  - repeat split; intros; cbn [fold_left]; rewrite group_step_last; cbn [List.length Nat.ltb Nat.leb app].
    + apply (IH gs).
    + destruct (IH gs) as (_ & _ & H). rewrite H. reflexivity.
    + destruct (IH (gs ++ [[a; b]])) as (_ & H & _). rewrite H, <- app_assoc. reflexivity.
Qed.

Lemma group_params_pairs (ps : list Q) :
  group_params ps = match ps with [] => [[]] | _ => pairs ps end.
Proof. exact (proj1 (fold_group_step ps [])). Qed.





Lemma foldR_add_command_inr (letter : ascii) (gs : list (list Q)) :
  forall cs cs' : list PathCommand,
    foldR (fun cs g => _add_command cs letter g) gs cs = inr cs' ->
    exists extra,
      cs' = cs ++ extra /\
      Forall2 (fun g c => _add_command [] letter g = inr [c]) gs extra.
Proof.
  induction gs as [| g gs IH]; intros cs cs'; simpl.
  - intros [= <-]. exists []. rewrite app_nil_r. auto.
  - intros H. apply rbind_inr in H as (cs1 & H1 & H).
    apply add_command_inr in H1 as (c & Hc & ->).
    apply IH in H as (extra & -> & HF).
    exists (c :: extra). rewrite <- app_assoc. auto.
Qed.


(** What one match adds to the commands. *)
Lemma add_match_inr (scale : Q) (cs : list PathCommand) (cmd : ascii)
    (params_str : string) (cs' : list PathCommand) :
  add_match scale cs (cmd, params_str) = inr cs' ->
  exists ps first rest c0 extra,
    all_params scale params_str = inr ps /\
    group_params ps = first :: rest /\
    _add_command [] (if (List.length cs =? 0)%nat then Char.upper cmd else cmd) first
      = inr [c0] /\
    Forall2 (fun g c => _add_command [] (implicit_cmd cmd) g = inr [c]) rest extra /\
    cs' = cs ++ c0 :: extra.
Proof.
  unfold add_match. intros H.
  apply rbind_inr in H as (ps & Hall & H).
  destruct (group_params ps) as [| first rest] eqn:Hg; [discriminate |].
  apply rbind_inr in H as (cs1 & H1 & H).
  apply add_command_inr in H1 as (c0 & Hc0 & ->).
  exists ps, first, rest, c0.
  destruct rest as [| g rest].
  - simpl in H. injection H as <-. exists []. auto.
  - cbn [List.length Nat.ltb Nat.leb] in H.
    apply foldR_add_command_inr in H as (extra & -> & HF).
    exists extra. rewrite <- app_assoc. auto.
Qed.


End Groups.

(** ** Auxiliary facts: the loop over the matches *)

Lemma foldR_invariant {A B} (I : A -> Prop) (f : A -> B -> result A) (xs : list B) :
  (forall acc x acc', In x xs -> I acc -> f acc x = inr acc' -> I acc') ->
  forall acc acc', I acc -> foldR f xs acc = inr acc' -> I acc'.
Proof.
  induction xs as [| x xs IH]; intros Hstep acc acc' Hacc; simpl.
  - now intros [= <-].
  - intros H. apply rbind_inr in H as (acc1 & H1 & H).
    apply (IH (fun a b c Hin => Hstep a b c (or_intror Hin)) acc1); [| exact H].
    apply (Hstep acc x); simpl; auto.
Qed.









(** ** The parser *)

(** C6. Whenever the parser accepts a path-data string, the first command of
    the result is absolute, whatever the case of the first letter of the
    text. *)
Theorem first_command_is_absolute (path_d : string) (scale : Q)
    (c : PathCommand) (cs : list PathCommand) :
  PathDrawer.parse path_d scale = inr (c :: cs) -> is_abs c = true.
Proof.
  unfold PathDrawer.parse. intros H.
  pose (Inv := fun l : list PathCommand =>
                 match l with [] => True | c0 :: _ => is_abs c0 = true end).
  change (Inv (c :: cs)).
  refine (foldR_invariant Inv _ _ _ [] _ I H).
  intros acc [cmd params_str] acc' Hin Hacc Hm.
  assert (Halpha : Char.isalpha cmd = true).
  { pose proof (findall_alpha path_d) as HF. rewrite List.Forall_forall in HF.
    exact (HF _ Hin). }
  apply add_match_inr in Hm as (ps & first & rest & c0 & extra & _ & _ & Hc0 & _ & ->).
  destruct acc as [| a acc]; simpl in *; [| exact Hacc].
  apply add_command_fields in Hc0 as (-> & _). now apply upper_isupper.
Qed.

Lemma first_command_is_absolute_witness :
  exists c cs,
    PathDrawer.parse "m 1,1 2,2" 1 = inr (c :: cs) /\ is_abs c = true.
Proof.
  exists (mkPathCommand true false (Some 1%Q) (Some (-1)%Q)),
         [mkPathCommand false true (Some 2%Q) (Some (-2)%Q)].
  split; [vm_compute; reflexivity |].
  apply (first_command_is_absolute "m 1,1 2,2" 1 _
           [mkPathCommand false true (Some 2%Q) (Some (-2)%Q)]).
  vm_compute; reflexivity.
Defined.

(** C5. ["m 1,1 2,2"] parses to an absolute pen-up move to (1,-1) followed
    by a relative pen-down line with (2,-2). In general the first group of
    parameters goes to the letter itself (in upper case for the first
    command of the path) and the groups behind it are added with the
    letter [l] after [m], [L] after [M], and the letter itself after any
    other letter; after [m]/[M] they are therefore pen-down commands of the
    case of the letter. *)
Theorem implicit_repeat_expansion :
  PathDrawer.parse "m 1,1 2,2" 1 =
    inr [mkPathCommand true false (Some 1%Q) (Some (-1)%Q);
         mkPathCommand false true (Some 2%Q) (Some (-2)%Q)]
  /\
  forall (scale : Q) (cs : list PathCommand) (cmd : ascii) (params_str : string)
         (cs' : list PathCommand),
    PathDrawer.add_match scale cs (cmd, params_str) = inr cs' ->
    exists ps first rest c0 extra,
      PathDrawer.all_params scale params_str = inr ps /\
      PathDrawer.group_params ps = first :: rest /\
      cs' = cs ++ c0 :: extra /\
      PathDrawer._add_command []
        (if (List.length cs =? 0)%nat then Char.upper cmd else cmd) first = inr [c0] /\
      Forall2
        (fun g c =>
           PathDrawer._add_command []
             (if Ascii.eqb cmd "m" then "l"%char
              else if Ascii.eqb cmd "M" then "L"%char else cmd) g = inr [c])
        rest extra /\
      (Char.lower cmd = "m"%char ->
       Forall (fun c => pendown c = true /\ is_abs c = Char.isupper cmd) extra).
Proof.
  split; [vm_compute; reflexivity |].
  intros scale cs cmd params_str cs' H.
  apply add_match_inr in H as (ps & first & rest & c0 & extra & Hps & Hg & Hc0 & HF & ->).
  exists ps, first, rest, c0, extra. repeat split; auto.
  intros Hm. clear Hc0. unfold PathDrawer.implicit_cmd in HF. clear Hg Hps.
  induction HF as [| g c rest extra Hc _ IH]; constructor; auto.
  apply add_command_fields in Hc as (Habs & Hpen & _).
  rewrite Habs, Hpen. clear - Hm.
  ascii_cases cmd; vm_compute in Hm; try discriminate Hm; split; reflexivity.
Qed.

Lemma implicit_repeat_expansion_witness :
  exists ps first rest c0 extra,
    PathDrawer.all_params 1 " 1,1 2,2" = inr ps /\
    PathDrawer.group_params ps = first :: rest /\
    [mkPathCommand true false (Some 1%Q) (Some (-1)%Q);
     mkPathCommand false true (Some 2%Q) (Some (-2)%Q)] = [] ++ c0 :: extra /\
    PathDrawer._add_command [] (Char.upper "m") first = inr [c0] /\
    Forall2 (fun g c => PathDrawer._add_command [] "l" g = inr [c]) rest extra /\
    (Char.lower "m" = "m"%char ->
     Forall (fun c => pendown c = true /\ is_abs c = Char.isupper "m") extra).
Proof.
  apply (proj2 implicit_repeat_expansion 1%Q [] "m"%char " 1,1 2,2").
  vm_compute; reflexivity.
Defined.
















(** Lower case [e] behind a command letter or a number is parameter text,
    and not a number on its own; where the pattern does find it as a
    letter, it is a lineto like the others. *)
Example lowercase_e_is_parameter_text :
  PathDrawer.parse "Me" 1 = inl ValueError /\
  PathDrawer.parse "Ml" 1 =
    inr [mkPathCommand true false None None; mkPathCommand false true None None] /\
  PathDrawer.parse "M0,0 e1,1" 1 = inl ValueError /\
  PathDrawer.parse "M0,0 l1,1" 1 =
    inr [mkPathCommand true false (Some 0%Q) (Some 0%Q);
         mkPathCommand false true (Some 1%Q) (Some (-1)%Q)] /\
  PathDrawer.parse "e1,1" 1 = PathDrawer.parse "L1,1" 1 /\
  respell "M0,0 e1,1 C2,2 z" = "M0,0 e1,1 L2,2 l".
Proof. vm_compute; repeat split; reflexivity. Qed.



(** ** The replay *)

(** C1, as the code has it. A command without [x] sets the ordinate to its
    [y] plus the offset's (absolute) or plus the current one (relative)
    and keeps the abscissa; a command without [y] sets the abscissa from
    its [x] in the same way and keeps the ordinate. *)
Theorem one_coordinate_commands (offset : Vec2D) (first_point : option Vec2D)
    (a p : bool) (v : Q) (t : Turtle.t) :
  Turtle.position
    (snd (PathDrawer.move offset first_point (mkPathCommand a p None (Some v)) t)) =
    (fst (Turtle.position t),
     if a then (v + snd offset)%Q else (v + snd (Turtle.position t))%Q)
  /\
  Turtle.position
    (snd (PathDrawer.move offset first_point (mkPathCommand a p (Some v) None) t)) =
    (if a then (v + fst offset)%Q else (v + fst (Turtle.position t))%Q,
     snd (Turtle.position t)).
Proof. destruct a, p, first_point; split; reflexivity. Qed.

(** C1 as stated fails: the command of ["V5"] has no [x] and moves the
    turtle from (0,0) to (0,-5), and the command of ["H5"] has no [y] and
    moves it to (5,0). *)
Lemma command_without_x_moves_y :
  PathDrawer.parse "V5" 1 = inr [mkPathCommand true true None (Some (-5)%Q)] /\
  Turtle.position
    (snd (PathDrawer.move (0, 0)%Q None
            (mkPathCommand true true None (Some (-5)%Q)) Turtle.fresh)) = (0, -5)%Q /\
  PathDrawer.parse "H5" 1 = inr [mkPathCommand true true (Some 5%Q) None] /\
  Turtle.position
    (snd (PathDrawer.move (0, 0)%Q None
            (mkPathCommand true true (Some 5%Q) None) Turtle.fresh)) = (5, 0)%Q.
Proof. repeat split; vm_compute; reflexivity. Qed.

(** C3 fails on the code: the empty string parses to no command, and the
    replay of no command raises [IndexError] when it reads the last command
    for the seed, before it touches the turtle; it does not return 0. *)
Theorem draw_of_no_command_raises :
  (forall scale : Q, PathDrawer.__init__ EmptyString scale = inr (PathDrawer.mk [])) /\
  (forall (offset : Vec2D) (t : Turtle.t),
      PathDrawer.draw (PathDrawer.mk []) offset t = (inl IndexError, t)).
Proof. split; reflexivity. Qed.

Lemma Qgt_bool_true (a b : Q) : Qgt_bool a b = true <-> (b < a)%Q.
Proof.
  unfold Qgt_bool. rewrite negb_true_iff. split.
  - intros H. apply Qnot_le_lt. intros Hle. apply Qle_bool_iff in Hle. congruence.
  - intros H. destruct (Qle_bool a b) eqn:E; [| reflexivity].
    apply Qle_bool_iff in E. exfalso. exact (Qlt_not_le _ _ H E).
Qed.

Lemma Qgt_bool_false (a b : Q) : Qgt_bool a b = false <-> (a <= b)%Q.
Proof.
  unfold Qgt_bool. rewrite negb_false_iff. apply Qle_bool_iff.
Qed.

Lemma fold_bump_some (xs : list Q) :
  forall s : Q, exists r, fold_left bump xs (Some s) = Some r /\ is_maximum r (s :: xs).
Proof.
  induction xs as [| a xs IH]; intros s; simpl.
  - exists s. split; [reflexivity |]. split.
    + intros v [<- | []]. apply Qle_refl.
    + exists s. split; [now left | reflexivity].
  - destruct (Qgt_bool a s) eqn:E.
    + apply Qgt_bool_true in E.
      destruct (IH a) as (r & -> & Hub & w & Hw & Hrw).
      exists r. split; [reflexivity |]. split.
      * intros v [<- | Hv]; [| now apply Hub].
        apply Qle_trans with a; [now apply Qlt_le_weak | apply Hub; now left].
      * exists w. split; [now right | exact Hrw].
    + apply Qgt_bool_false in E.
      destruct (IH s) as (r & -> & Hub & w & Hw & Hrw).
      exists r. split; [reflexivity |]. split.
      * intros v [<- | [<- | Hv]].
        -- apply Hub; now left.
        -- apply Qle_trans with s; [exact E | apply Hub; now left].
        -- apply Hub; now right.
      * exists w. split; [| exact Hrw].
        destruct Hw as [<- | Hw]; [now left | right; now right].
Qed.

Lemma fold_bump (seed : option Q) (xs : list Q) :
  seed_values seed ++ xs <> [] ->
  exists r, fold_left bump xs seed = Some r /\ is_maximum r (seed_values seed ++ xs).
Proof.
  destruct seed as [s |]; simpl.
  - intros _. apply fold_bump_some.
  - destruct xs as [| a xs]; [congruence | intros _]. simpl. apply fold_bump_some.
Qed.

Lemma or_zero_some (r : Q) : (or_zero (Some r) == r)%Q.
Proof.
  simpl. destruct (Qeq_bool r 0) eqn:E; [| reflexivity].
  apply Qeq_bool_iff in E. now symmetry.
Qed.

Lemma foldSt_body (offset : Vec2D) (cmds : list PathCommand) :
  forall (first_point : option Vec2D) (max_x : option Q) (t : Turtle.t),
    snd (fst (foldSt (PathDrawer.body offset) cmds (first_point, max_x) t)) =
    fold_left bump (reached offset first_point cmds t) max_x.
Proof.
  induction cmds as [| c cs IH]; intros fp m t; [reflexivity |].
  cbn [foldSt reached]. unfold bind at 1. unfold PathDrawer.body at 1.
  unfold bind at 1.
  destruct (PathDrawer.move offset fp c t) as [fp' t'].
  cbn [fold_left]. unfold bind, T.xcor, ret. apply IH.
Qed.

Lemma reached_length (offset : Vec2D) (cmds : list PathCommand) :
  forall (first_point : option Vec2D) (t : Turtle.t),
    List.length (reached offset first_point cmds t) = List.length cmds.
Proof.
  induction cmds as [| c cs IH]; intros fp t; simpl; [reflexivity |].
  destruct (PathDrawer.move offset fp c t) as [fp' t']. simpl. now rewrite IH.
Qed.

Lemma index_last {A} (xs : list A) (a : A) :
  index (xs ++ [a]) (List.length (xs ++ [a]) - 1) = inr a.
Proof.
  unfold index. rewrite List.length_app. simpl.
  replace (List.length xs + 1 - 1)%nat with (List.length xs) by lia.
  rewrite List.nth_error_app2 by lia. now rewrite Nat.sub_diag.
Qed.

(** C4. The replay of a non-empty command sequence starts its running
    bound from the [y] of the last command (which may be absent) and
    returns the greatest of that seed and the abscissas reached behind each
    command. *)
Theorem draw_returns_the_maximum (cs : list PathCommand) (last : PathCommand)
    (offset : Vec2D) (t : Turtle.t) :
  exists r,
    fst (PathDrawer.draw (PathDrawer.mk (cs ++ [last])) offset t) = inr r /\
    r = or_zero (fold_left bump (reached offset None (cs ++ [last]) t) (y last)) /\
    is_maximum r (seed_values (y last) ++ reached offset None (cs ++ [last]) t).
Proof.
  unfold PathDrawer.draw, mbind, lift_result, lift, mret. cbn [PathDrawer.commands].
  rewrite index_last.
  pose proof (foldSt_body offset (cs ++ [last]) None (y last) t) as Hfold.
  destruct (foldSt (PathDrawer.body offset) (cs ++ [last]) (None, y last) t)
    as [st t'] eqn:E.
  unfold ok. cbn [fst snd] in *. rewrite Hfold.
  destruct (fold_bump (y last) (reached offset None (cs ++ [last]) t))
    as (r & Hr & Hub & w & Hw & Hrw).
  { intros Hnil. apply (f_equal (@List.length Q)) in Hnil.
    rewrite length_app, reached_length, length_app in Hnil. simpl in Hnil. lia. }
  rewrite Hr. exists (or_zero (Some r)). split; [reflexivity |]. split; [reflexivity |].
  pose proof (or_zero_some r) as Hz. split.
  - intros v Hv. rewrite Hz. now apply Hub.
  - exists w. split; [exact Hw |]. now rewrite Hz.
Qed.

(** ** Auxiliary facts: drawing glyphs *)

Lemma foldM_app {A B} (f : A -> B -> M A) (xs ys : list B) (acc : A) (t : Turtle.t) :
  foldM f (xs ++ ys) acc t =
  match foldM f xs acc t with
  | (inl e, t') => (inl e, t')
  | (inr acc', t') => foldM f ys acc' t'
  end.
Proof.
  revert acc t; induction xs as [| b xs IH]; intros acc t; [reflexivity |].
  cbn [app foldM]. unfold mbind. destruct (f acc b t) as [[e | acc1] t1]; auto.
Qed.

(** The replay of a path raises only for want of a command. *)
Lemma draw_path_ok (self : PathDrawer.t) (offset : Vec2D) (t : Turtle.t) :
  PathDrawer.commands self <> [] ->
  exists r t', PathDrawer.draw self offset t = (inr r, t').
Proof.
  destruct self as [cmds]. cbn [PathDrawer.commands]. intros Hne.
  destruct (exists_last Hne) as (cs & last & ->).
  unfold PathDrawer.draw, mbind, lift_result, lift, mret. cbn [PathDrawer.commands].
  rewrite index_last.
  destruct (foldSt (PathDrawer.body offset) (cs ++ [last]) (None, y last) t) as [st t'].
  eauto.
Qed.

Lemma draw_glyph_ok (self : DigitDisplay.t) (x_offset : Q) (global_offset : Vec2D)
    (t : Turtle.t) :
  Forall (fun p => PathDrawer.commands p <> []) (DigitDisplay.paths self) ->
  exists r t', DigitDisplay.draw self x_offset global_offset t = (inr r, t').
Proof.
  unfold DigitDisplay.draw. intros Hne.
  enough (H : forall acc t0, exists m t',
             foldM (fun max_x path =>
                      (let* v := PathDrawer.draw path (x_offset, snd global_offset) in
                       mret (bump max_x v))%M)
                   (DigitDisplay.paths self) acc t0 = (inr m, t')).
  { destruct (H None t) as (m & t' & Hm). unfold mbind at 1. rewrite Hm.
    unfold mret. eauto. }
  induction Hne as [| p ps Hp _ IH]; intros acc t0.
  - simpl. unfold mret. eauto.
  - cbn [foldM]. unfold mbind at 1. unfold mbind at 1.
    destruct (draw_path_ok p (x_offset, snd global_offset) t0 Hp) as (r & t1 & ->).
    unfold mret at 1. apply IH.
Qed.

(** ** Auxiliary facts: the glyph table *)

Lemma parse_nonempty (path_d : string) (scale : Q) (cs : list PathCommand) :
  Re.findall path_d <> [] -> PathDrawer.parse path_d scale = inr cs -> cs <> [].
Proof.
  unfold PathDrawer.parse. intros Hne H.
  destruct (exists_last Hne) as (ms & [cmd params_str] & Hms). rewrite Hms in H.
  clear Hms Hne. revert H. generalize (@nil PathCommand) at 1.
  induction ms as [| m ms IH]; intros acc; simpl.
  - intros H. apply rbind_inr in H as (acc1 & H1 & [= <-]).
    apply add_match_inr in H1 as (? & ? & ? & c0 & extra & _ & _ & _ & _ & ->).
    intros E. apply (f_equal (@List.length PathCommand)) in E.
    rewrite List.length_app in E. simpl in E. lia.
  - intros H. apply rbind_inr in H as (acc1 & _ & H). eauto.
Qed.

(** The table built by [DigitsDisplay.__init__] has exactly the keys of
    [DIGIT_CHARS], and each glyph comes from the paths of its file. *)
Lemma init_table (font_dir : ascii -> option (list string)) (scale : Q)
    (chars : list ascii) :
  forall m0 m : gmap ascii DigitDisplay.t,
    foldR (fun (drawers : gmap ascii DigitDisplay.t) char =>
             match font_dir char with
             | None => raise FileNotFoundError
             | Some ds =>
                 (let? d := DigitDisplay.__init__ ds scale in
                  ok (<[char := d]> drawers))%result
             end) chars m0 = inr m ->
    forall c,
      (is_Some (m !! c) <-> In c chars \/ is_Some (m0 !! c)) /\
      (forall d, m !! c = Some d ->
         m0 !! c = Some d \/
         exists ds, font_dir c = Some ds /\ DigitDisplay.__init__ ds scale = inr d).
Proof.
  induction chars as [| a chars IH]; intros m0 m; simpl.
  - intros [= <-] c. split; [tauto | auto].
  - intros H. apply rbind_inr in H as (m1 & H1 & H).
    destruct (font_dir a) as [ds |] eqn:Hfont; [| discriminate].
    apply rbind_inr in H1 as (d0 & Hd0 & [= <-]).
    intros c. destruct (IH _ _ H c) as [Hdom Hval]. split.
    + rewrite Hdom. destruct (decide (a = c)) as [-> | Hne].
      * rewrite lookup_insert_eq. split; [auto | intros _; right; eauto].
      * rewrite lookup_insert_ne by assumption. tauto.
    + intros d Hd. destruct (Hval d Hd) as [Hm0 | Hnew]; [| auto].
      destruct (decide (a = c)) as [-> | Hne].
      * rewrite lookup_insert_eq in Hm0. injection Hm0 as <-. eauto.
      * rewrite lookup_insert_ne in Hm0 by assumption. auto.
Qed.

Lemma init_glyphs (font_dir : ascii -> option (list string)) (scale : Q)
    (speed : Z) (self : DigitsDisplay.t) :
  DigitsDisplay.__init__ font_dir scale speed = inr self ->
  forall c,
    (is_Some (DigitsDisplay.digit_drawers self !! c) <-> In c DigitsDisplay.DIGIT_CHARS) /\
    (forall d, DigitsDisplay.digit_drawers self !! c = Some d ->
       exists ds, font_dir c = Some ds /\ DigitDisplay.__init__ ds scale = inr d).
Proof.
  unfold DigitsDisplay.__init__. intros H c.
  apply rbind_inr in H as (m & Hm & [= <-]). cbn [DigitsDisplay.digit_drawers].
  destruct (init_table _ _ _ _ _ Hm c) as [Hdom Hval]. split.
  - rewrite Hdom. split; [intros [? | [d Hd]]; [assumption |] | auto].
    rewrite lookup_empty in Hd. discriminate.
  - intros d Hd. destruct (Hval d Hd) as [Hm0 | ?]; [| assumption].
    rewrite lookup_empty in Hm0. discriminate.
Qed.

Lemma init_paths_nonempty (ds : list string) (scale : Q) (d : DigitDisplay.t) :
  Forall (fun s => Re.findall s <> []) ds ->
  DigitDisplay.__init__ ds scale = inr d ->
  Forall (fun p => PathDrawer.commands p <> []) (DigitDisplay.paths d).
Proof.
  unfold DigitDisplay.__init__. intros Hds H.
  apply rbind_inr in H as (ps & Hps & [= <-]). cbn [DigitDisplay.paths].
  apply List.Forall_forall. intros p Hp.
  destruct (mapR_In _ _ _ _ Hps Hp) as (s & Hs & Hinit).
  unfold PathDrawer.__init__ in Hinit.
  apply rbind_inr in Hinit as (cs & Hcs & [= <-]). cbn [PathDrawer.commands].
  rewrite List.Forall_forall in Hds. exact (parse_nonempty _ _ _ (Hds _ Hs) Hcs).
Qed.

Lemma accepted_spec (c : ascii) :
  accepted c = true <->
  In c DigitsDisplay.DIGIT_CHARS \/ In (Char.upper c) DigitsDisplay.DIGIT_CHARS.
Proof.
  assert (Hin : forall a, In a DigitsDisplay.DIGIT_CHARS <->
                          existsb (Ascii.eqb a) DigitsDisplay.DIGIT_CHARS = true).
  { intros a. rewrite existsb_exists. split.
    - intros Ha. exists a. split; [exact Ha | apply Ascii.eqb_refl].
    - intros (b & Hb & E). apply Ascii.eqb_eq in E. now subst. }
  rewrite !Hin, <- orb_true_iff.
  replace (accepted c) with
    (existsb (Ascii.eqb c) DigitsDisplay.DIGIT_CHARS
     || existsb (Ascii.eqb (Char.upper c)) DigitsDisplay.DIGIT_CHARS)%bool; [tauto |].
  ascii_cases c; vm_compute; reflexivity.
Qed.

Lemma draw_digit_invalid (self : DigitsDisplay.t) (x_offset : Q) (c : ascii)
    (t : Turtle.t) :
  DigitsDisplay.digit_drawers self !! c = None ->
  DigitsDisplay.digit_drawers self !! Char.upper c = None ->
  DigitsDisplay.draw_digit self x_offset c t = (inl ValueError, t).
Proof.
  intros H1 H2. unfold DigitsDisplay.draw_digit, mbind. now rewrite H1, H2.
Qed.

Lemma draw_digit_valid (self : DigitsDisplay.t) (x_offset : Q) (c : ascii)
    (t : Turtle.t) :
  (forall a d, DigitsDisplay.digit_drawers self !! a = Some d ->
     Forall (fun p => PathDrawer.commands p <> []) (DigitDisplay.paths d)) ->
  is_Some (DigitsDisplay.digit_drawers self !! c) \/
  is_Some (DigitsDisplay.digit_drawers self !! Char.upper c) ->
  exists r t', DigitsDisplay.draw_digit self x_offset c t = (inr r, t').
Proof.
  intros Hne Hc. unfold DigitsDisplay.draw_digit.
  assert (Hkey : exists k d,
             DigitsDisplay.digit_drawers self !! k = Some d /\
             match DigitsDisplay.digit_drawers self !! c with
             | None =>
                 match DigitsDisplay.digit_drawers self !! Char.upper c with
                 | None => mraise ValueError
                 | Some _ => mret (Char.upper c)
                 end
             | Some _ => mret c
             end t = (inr k, t)).
  { destruct (DigitsDisplay.digit_drawers self !! c) as [d |] eqn:E1.
    - exists c, d. auto.
    - destruct (DigitsDisplay.digit_drawers self !! Char.upper c) as [d |] eqn:E2.
      + exists (Char.upper c), d. auto.
      + destruct Hc as [[? [=]] | [? [=]]]. }
  destruct Hkey as (k & d & Hk & Hsel).
  unfold mbind at 1. rewrite Hsel. unfold mbind at 1. rewrite Hk.
  unfold mret at 1, ok. cbv iota beta. unfold mbind at 1.
  destruct (draw_glyph_ok d x_offset (0, 0)%Q t (Hne _ _ Hk)) as (r & t' & ->).
  unfold mret. eauto.
Qed.

Lemma list_ascii_of_string_app (s1 s2 : string) :
  list_ascii_of_string (s1 ++ s2)%string =
  list_ascii_of_string s1 ++ list_ascii_of_string s2.
Proof. induction s1 as [| c s1 IH]; simpl; [reflexivity | now rewrite IH]. Qed.

(** The loop of [DigitsDisplay.draw] and the three calls before it. *)
Lemma draw_unfold (self : DigitsDisplay.t) (digits_str : string) (offset : Vec2D)
    (t : Turtle.t) :
  DigitsDisplay.draw self digits_str offset t =
  match foldM (DigitsDisplay.draw_digit self) (list_ascii_of_string digits_str)
          (fst offset)
          (Turtle.mk (0, 0)%Q true [] false
             (if ((1 <=? DigitsDisplay.speed self) && (DigitsDisplay.speed self <=? 10))%Z
              then DigitsDisplay.speed self else 0%Z)) with
  | (inl e, t') => (inl e, t')
  | (inr _, t') => (inr tt, t')
  end.
Proof. reflexivity. Qed.

(** ** The digit strip *)

(** C9, as the code has it. On a display built from a font whose paths all
    have a command, drawing succeeds when every character is one of
    [0-9], [A-F], [a-f] or [x], and raises [ValueError] otherwise: the
    fallback is to the upper case only, so [X] is not accepted. *)
Theorem draw_accepts_hex_digits_and_x (font_dir : ascii -> option (list string))
    (scale : Q) (speed : Z) (self : DigitsDisplay.t) :
  DigitsDisplay.__init__ font_dir scale speed = inr self ->
  (forall c ds, font_dir c = Some ds -> Forall (fun s => Re.findall s <> []) ds) ->
  forall (digits_str : string) (offset : Vec2D) (t : Turtle.t),
    fst (DigitsDisplay.draw self digits_str offset t) =
    if forallb accepted (list_ascii_of_string digits_str)
    then inr tt else inl ValueError.
Proof.
  intros Hinit Hfont digits_str offset t.
  pose proof (init_glyphs _ _ _ _ Hinit) as Hglyphs.
  assert (Hne : forall a d, DigitsDisplay.digit_drawers self !! a = Some d ->
                  Forall (fun p => PathDrawer.commands p <> []) (DigitDisplay.paths d)).
  { intros a d Hd. destruct (proj2 (Hglyphs a) d Hd) as (ds & Hds & Hd').
    exact (init_paths_nonempty ds scale d (Hfont _ _ Hds) Hd'). }
  assert (Hacc : forall c, accepted c = true <->
                   is_Some (DigitsDisplay.digit_drawers self !! c) \/
                   is_Some (DigitsDisplay.digit_drawers self !! Char.upper c)).
  { intros c. rewrite accepted_spec, !(proj1 (Hglyphs _)). reflexivity. }
  rewrite draw_unfold.
  generalize (Turtle.mk (0, 0)%Q true [] false
                (if ((1 <=? DigitsDisplay.speed self) && (DigitsDisplay.speed self <=? 10))%Z
                 then DigitsDisplay.speed self else 0%Z)).
  generalize (fst offset).
  induction (list_ascii_of_string digits_str) as [| c chars IH]; intros xo t0;
    [reflexivity |].
  cbn [foldM forallb]. unfold mbind.
  destruct (accepted c) eqn:Ec.
  - destruct (draw_digit_valid self xo c t0 Hne (proj1 (Hacc c) Ec)) as (r & t' & ->).
    cbn [andb]. apply IH.
  - rewrite draw_digit_invalid; [reflexivity | |].
    + destruct (DigitsDisplay.digit_drawers self !! c) eqn:E; [| reflexivity].
      assert (accepted c = true) by (apply Hacc; left; eauto). congruence.
    + destruct (DigitsDisplay.digit_drawers self !! Char.upper c) eqn:E; [| reflexivity].
      assert (accepted c = true) by (apply Hacc; right; eauto). congruence.
Qed.

Lemma draw_accepts_hex_digits_and_x_witness :
  fst (DigitsDisplay.draw example_display "0x1aF" (0, 0)%Q Turtle.fresh) = inr tt.
Proof.
  apply (draw_accepts_hex_digits_and_x example_font 1%Q 0%Z example_display).
  - vm_compute; reflexivity.
  - intros c ds [= <-]. repeat constructor. vm_compute; discriminate.
Defined.

(** C9 as stated fails: [X] is [x] up to letter case and [x] is a
    registered glyph, yet drawing ["X"] raises [ValueError]. *)
Lemma uppercase_x_is_rejected :
  DigitsDisplay.__init__ example_font 1 0 = inr example_display /\
  In "x"%char DigitsDisplay.DIGIT_CHARS /\
  Char.lower "X" = Char.lower "x" /\
  fst (DigitsDisplay.draw example_display "x" (0, 0)%Q Turtle.fresh) = inr tt /\
  fst (DigitsDisplay.draw example_display "X" (0, 0)%Q Turtle.fresh) = inl ValueError.
Proof.
  split; [vm_compute; reflexivity |].
  split; [vm_compute; tauto |].
  repeat split; vm_compute; reflexivity.
Qed.

(** C10. When a character without glyph follows characters that were drawn
    without error, [draw] raises [ValueError] and leaves the turtle exactly
    as drawing the characters before it leaves it: their strokes stay. *)
Theorem draw_is_not_atomic (self : DigitsDisplay.t) (pre : string) (bad : ascii)
    (post : string) (offset : Vec2D) (t t1 : Turtle.t) :
  DigitsDisplay.draw self pre offset t = (inr tt, t1) ->
  DigitsDisplay.digit_drawers self !! bad = None ->
  DigitsDisplay.digit_drawers self !! Char.upper bad = None ->
  DigitsDisplay.draw self (pre ++ String bad post)%string offset t =
    (inl ValueError, t1).
Proof.
  rewrite !draw_unfold. intros Hpre H1 H2.
  rewrite list_ascii_of_string_app, foldM_app.
  destruct (foldM (DigitsDisplay.draw_digit self) (list_ascii_of_string pre)
              (fst offset) _) as [[e | xo] t'] eqn:E; [discriminate |].
  injection Hpre as <-.
  cbn [list_ascii_of_string foldM]. unfold mbind.
  now rewrite (draw_digit_invalid self xo bad t' H1 H2).
Qed.

Lemma draw_is_not_atomic_witness :
  DigitsDisplay.draw example_display "Ag1" (0, 0)%Q Turtle.fresh =
    (inl ValueError,
     Turtle.mk (20, 0)%Q true [((0, 0)%Q, (20, 0)%Q)] false 0).
Proof.
  apply (draw_is_not_atomic example_display "A" "g"%char "1" (0, 0)%Q Turtle.fresh).
  - vm_compute; reflexivity.
  - vm_compute; reflexivity.
  - vm_compute; reflexivity.
Defined.

(** ** The examples of the specification *)

Example parse_move_then_horizontal :
  PathDrawer.parse "M10,10H50" 1 =
    inr [mkPathCommand true false (Some 10%Q) (Some (-10)%Q);
         mkPathCommand true true (Some 50%Q) None].
Proof. vm_compute; reflexivity. Qed.

(** [Z] draws back to the position at the first pen-down command of the
    subpath. *)
Example close_path_returns_to_first_point :
  PathDrawer.draw (PathDrawer.mk
                     [mkPathCommand true false (Some 0%Q) (Some 0%Q);
                      mkPathCommand true true (Some 10%Q) (Some 0%Q);
                      mkPathCommand true true (Some 10%Q) (Some (-10)%Q);
                      mkPathCommand true true None None])
    (5, 0)%Q Turtle.fresh =
  (inr 15%Q,
   Turtle.mk (5, 0)%Q true
     [((5, 0)%Q, (15, 0)%Q); ((15, 0)%Q, (15, -10)%Q); ((15, -10)%Q, (5, 0)%Q)]
     true 3).
Proof. vm_compute; reflexivity. Qed.

(** Three glyphs of width 20 start at 0, 30 and 60. *)
Example three_glyphs_advance_by_thirty :
  DigitsDisplay.draw example_display "xAB" (0, 0)%Q Turtle.fresh =
  (inr tt,
   Turtle.mk (80, 0)%Q true
     [((0, 0)%Q, (20, 0)%Q); ((30, 0)%Q, (50, 0)%Q); ((60, 0)%Q, (80, 0)%Q)]
     false 0).
Proof. vm_compute; reflexivity. Qed.

(** * Further properties *)

(** ** The parser: empty paths and counts *)

Lemma findall_from_no_letter (s : string) :
  List.Forall (fun c => Char.isalpha c = false) (list_ascii_of_string s) ->
  forall k, Re.findall_from k s = [].
Proof.
  induction s as [| c s IH]; intros H k; [reflexivity |].
  simpl in H. inversion H as [| ? ? Hc Hs]; subst.
  cbn [Re.findall_from Re.match_at]. rewrite Hc.
  destruct k; now apply IH.
Qed.

Lemma findall_nil (s : string) :
  Re.findall s = [] <->
  List.Forall (fun c => Char.isalpha c = false) (list_ascii_of_string s).
Proof.
  split; [| intros H; now apply findall_from_no_letter].
  unfold Re.findall. induction s as [| c s IH]; [constructor |].
  cbn [Re.findall_from Re.match_at list_ascii_of_string].
  destruct (Char.isalpha c) eqn:Hc; [discriminate |].
  intros H. constructor; auto.
Qed.

Lemma parse_nil (path_d : string) (scale : Q) :
  PathDrawer.parse path_d scale = inr [] <-> Re.findall path_d = [].
Proof.
  split.
  - intros H. destruct (Re.findall path_d) as [| m ms] eqn:E; [reflexivity |].
    exfalso. refine (parse_nonempty path_d scale [] _ H eq_refl). now rewrite E.
  - unfold PathDrawer.parse. now intros ->.
Qed.

(** X2. A drawer built from a path-data string raises [IndexError] when
    it is drawn exactly when the string has no ASCII letter (it then has no
    command); otherwise [draw] returns a number. *)
Theorem draw_raises_iff_no_letter (path_d : string) (scale : Q) (self : PathDrawer.t)
    (offset : Vec2D) (t : Turtle.t) :
  PathDrawer.__init__ path_d scale = inr self ->
  (fst (PathDrawer.draw self offset t) = inl IndexError <->
   List.Forall (fun c => Char.isalpha c = false) (list_ascii_of_string path_d)) /\
  (fst (PathDrawer.draw self offset t) = inl IndexError \/
   exists r, fst (PathDrawer.draw self offset t) = inr r).
Proof.
  unfold PathDrawer.__init__. intros H.
  apply rbind_inr in H as (cs & Hcs & [= <-]).
  rewrite <- findall_nil, <- (parse_nil path_d scale).
  destruct cs as [| c cs].
  - split; [split; auto | left; reflexivity].
  - destruct (draw_path_ok (PathDrawer.mk (c :: cs)) offset t) as (r & t' & E);
      [discriminate |].
    rewrite E. cbn [fst]. split; [| eauto].
    split; [discriminate | rewrite Hcs; discriminate].
Qed.

Lemma draw_raises_iff_no_letter_witness :
  (fst (PathDrawer.draw (PathDrawer.mk []) (0, 0)%Q Turtle.fresh) = inl IndexError <->
   List.Forall (fun c => Char.isalpha c = false) (list_ascii_of_string "10,10 50")) /\
  (fst (PathDrawer.draw (PathDrawer.mk []) (0, 0)%Q Turtle.fresh) = inl IndexError \/
   exists r, fst (PathDrawer.draw (PathDrawer.mk []) (0, 0)%Q Turtle.fresh) = inr r).
Proof.
  apply (draw_raises_iff_no_letter "10,10 50" 1%Q (PathDrawer.mk []) (0, 0)%Q Turtle.fresh).
  vm_compute; reflexivity.
Defined.

Lemma pairs_length (ps : list Q) : List.length (pairs ps) = Nat.div2 (S (List.length ps)).
Proof.
  induction ps as [| a | a b ps IH] using list_ind2; simpl; [reflexivity .. |].
  rewrite IH. reflexivity.
Qed.

Lemma group_params_length (ps : list Q) :
  List.length (PathDrawer.group_params ps) = group_count (List.length ps).
Proof.
  rewrite group_params_pairs. unfold group_count.
  destruct ps as [| p ps]; [reflexivity |].
  rewrite pairs_length. destruct ps as [| q ps]; [reflexivity |].
  cbn [List.length Nat.div2]. lia.
Qed.

Lemma lower_m (c : ascii) :
  Char.lower c = "m"%char -> c = "m"%char \/ c = "M"%char.
Proof. ascii_cases c; vm_compute; intros H; try discriminate H; auto. Qed.

Lemma implicit_cmd_pendown (cmd : ascii) :
  Ascii.eqb (Char.lower (PathDrawer.implicit_cmd cmd)) "m" = false.
Proof.
  unfold PathDrawer.implicit_cmd.
  destruct (Ascii.eqb_spec cmd "m") as [-> | H1]; [reflexivity |].
  destruct (Ascii.eqb_spec cmd "M") as [-> | H2]; [reflexivity |].
  destruct (Ascii.eqb_spec (Char.lower cmd) "m") as [H | H]; [| reflexivity].
  destruct (lower_m _ H); contradiction.
Qed.

(** What one match adds: the number of commands and of pen-up commands. *)
Lemma add_match_counts (scale : Q) (cs : list PathCommand) (cmd : ascii)
    (params_str : string) (cs' : list PathCommand) :
  PathDrawer.add_match scale cs (cmd, params_str) = inr cs' ->
  exists new,
    cs' = cs ++ new /\
    List.length new = group_count (List.length (PathDrawer.tokens params_str)) /\
    List.length (List.filter (fun c => negb (pendown c)) new) =
      (if is_moveto cmd then 1 else 0)%nat.
Proof.
  intros H.
  apply add_match_inr in H as (ps & first & rest & c0 & extra & Hps & Hg & Hc0 & HF & ->).
  exists (c0 :: extra). split; [reflexivity |]. split.
  - pose proof (group_params_length ps) as Hlen. rewrite Hg in Hlen.
    unfold PathDrawer.all_params in Hps. rewrite (mapR_length _ _ _ Hps) in Hlen.
    rewrite <- Hlen. cbn [List.length]. f_equal.
    symmetry. clear - HF. induction HF; simpl; auto.
  - assert (Hextra : List.filter (fun c => negb (pendown c)) extra = []).
    { clear - HF. induction HF as [| g c rest extra Hc _ IH]; [reflexivity |].
      apply add_command_fields in Hc as (_ & Hpen & _).
      cbn [List.filter]. rewrite Hpen, implicit_cmd_pendown. exact IH. }
    cbn [List.filter]. rewrite Hextra.
    apply add_command_fields in Hc0 as (_ & Hpen & _). rewrite Hpen.
    unfold is_moveto.
    replace (Char.lower (if (List.length cs =? 0)%nat then Char.upper cmd else cmd))
      with (Char.lower cmd)
      by (destruct (List.length cs =? 0)%nat; [now rewrite lower_upper | reflexivity]).
    destruct (Ascii.eqb (Char.lower cmd) "m"); reflexivity.
Qed.

(** X3. A parsed path has one command for each group of parameters: a
    match with [n] numeric tokens gives [max 1 (ceil (n / 2))] commands. *)
Theorem parse_command_count (path_d : string) (scale : Q) (cs : list PathCommand) :
  PathDrawer.parse path_d scale = inr cs ->
  List.length cs =
  list_sum (map (fun m => group_count (List.length (PathDrawer.tokens (snd m))))
              (Re.findall path_d)).
Proof.
  unfold PathDrawer.parse.
  change (List.length cs = _) with
    (List.length cs = (List.length (@nil PathCommand) +
       list_sum (map (fun m => group_count (List.length (PathDrawer.tokens (snd m))))
                   (Re.findall path_d)))%nat).
  generalize (@nil PathCommand) at 1 2. revert cs.
  induction (Re.findall path_d) as [| [cmd params_str] ms IH]; intros cs acc; simpl.
  - intros [= <-]. lia.
  - intros H. apply rbind_inr in H as (acc1 & H1 & H).
    apply add_match_counts in H1 as (new & -> & Hlen & _).
    rewrite (IH _ _ H), List.length_app, Hlen. lia.
Qed.

Lemma parse_command_count_witness :
  List.length [mkPathCommand true false (Some 1%Q) (Some (-1)%Q);
               mkPathCommand false true (Some 2%Q) (Some (-2)%Q);
               mkPathCommand false true None None] =
  list_sum (map (fun m => group_count (List.length (PathDrawer.tokens (snd m))))
              (Re.findall "m 1,1 2,2 z")).
Proof.
  apply (parse_command_count "m 1,1 2,2 z" 1%Q).
  vm_compute; reflexivity.
Defined.

(** X4. The pen-up commands of a parsed path are as many as its matches
    with the letter [m] or [M]: only the first command of a moveto lifts the
    pen. *)
Theorem parse_pen_up_count (path_d : string) (scale : Q) (cs : list PathCommand) :
  PathDrawer.parse path_d scale = inr cs ->
  List.length (List.filter (fun c => negb (pendown c)) cs) =
  List.length (List.filter (fun m => is_moveto (fst m)) (Re.findall path_d)).
Proof.
  unfold PathDrawer.parse.
  change (List.length (List.filter (fun c => negb (pendown c)) cs) = _) with
    (List.length (List.filter (fun c => negb (pendown c)) cs) =
     (List.length (List.filter (fun c => negb (pendown c)) (@nil PathCommand)) +
      List.length (List.filter (fun m => is_moveto (fst m)) (Re.findall path_d)))%nat).
  generalize (@nil PathCommand) at 1 2. revert cs.
  induction (Re.findall path_d) as [| [cmd params_str] ms IH]; intros cs acc; simpl.
  - intros [= <-]. lia.
  - intros H. apply rbind_inr in H as (acc1 & H1 & H).
    apply add_match_counts in H1 as (new & -> & _ & Hpen).
    rewrite (IH _ _ H), List.filter_app, List.length_app, Hpen.
    destruct (is_moveto cmd); simpl; lia.
Qed.

Lemma parse_pen_up_count_witness :
  List.length (List.filter (fun c => negb (pendown c))
                 [mkPathCommand true false (Some 1%Q) (Some (-1)%Q);
                  mkPathCommand false true (Some 2%Q) (Some (-2)%Q);
                  mkPathCommand false true None None]) =
  List.length (List.filter (fun m => is_moveto (fst m)) (Re.findall "m 1,1 2,2 z")).
Proof.
  apply (parse_pen_up_count "m 1,1 2,2 z" 1%Q).
  vm_compute; reflexivity.
Defined.

(** ** The replay: what it leaves untouched *)

Lemma move_frame (offset : Vec2D) (first_point : option Vec2D) (cmd : PathCommand)
    (t : Turtle.t) :
  Turtle.shown (snd (PathDrawer.move offset first_point cmd t)) = Turtle.shown t /\
  Turtle.animation (snd (PathDrawer.move offset first_point cmd t)) = Turtle.animation t /\
  Turtle.lines (snd (PathDrawer.move offset first_point cmd t)) =
    Turtle.lines t ++
    (if pendown cmd
     then [(Turtle.position t,
            Turtle.position (snd (PathDrawer.move offset first_point cmd t)))]
     else []).
Proof.
  destruct cmd as [a p [cx |] [cy |]], first_point, p, a;
    cbn; rewrite ?app_nil_r; auto.
Qed.

Lemma body_frame (offset : Vec2D) (cmds : list PathCommand) :
  forall (st st' : option Vec2D * option Q) (t t' : Turtle.t),
    foldSt (PathDrawer.body offset) cmds st t = (st', t') ->
    Turtle.shown t' = Turtle.shown t /\
    Turtle.animation t' = Turtle.animation t /\
    exists new,
      Turtle.lines t' = Turtle.lines t ++ new /\
      List.length new = List.length (List.filter pendown cmds).
Proof.
  induction cmds as [| c cs IH]; intros [fp m] st' t t'.
  - cbn. intros [= <- <-]. repeat split; auto. exists []. now rewrite app_nil_r.
  - cbn [foldSt]. unfold bind at 1. unfold PathDrawer.body at 1. unfold bind at 1.
    destruct (move_frame offset fp c t) as (Hs & Ha & Hl).
    destruct (PathDrawer.move offset fp c t) as [fp' t1]. cbn [snd] in *.
    unfold bind at 1. unfold T.xcor at 1. unfold ret at 1.
    intros H. apply IH in H as (Hs' & Ha' & new & Hl' & Hn).
    rewrite Hs', Ha', Hl', Hl, Hs, Ha. repeat split; auto.
    eexists. rewrite <- app_assoc. split; [reflexivity |].
    cbn [List.filter]. destruct (pendown c); rewrite List.length_app, Hn; reflexivity.
Qed.

Lemma draw_frame (self : PathDrawer.t) (offset : Vec2D)
    (t t' : Turtle.t) (r : result Q) :
  PathDrawer.draw self offset t = (r, t') ->
  Turtle.shown t' = Turtle.shown t /\
  Turtle.animation t' = Turtle.animation t /\
  exists new,
    Turtle.lines t' = Turtle.lines t ++ new /\
    List.length new = List.length (List.filter pendown (PathDrawer.commands self)).
Proof.
  destruct self as [cmds]. cbn [PathDrawer.commands].
  destruct cmds as [| c cs].
  - cbn. intros [= <- <-]. repeat split; auto. exists []. now rewrite app_nil_r.
  - destruct (exists_last (l := c :: cs) ltac:(discriminate)) as (cs' & last & E).
    rewrite E.
    unfold PathDrawer.draw, mbind, lift_result, lift, mret. cbn [PathDrawer.commands].
    rewrite index_last.
    destruct (foldSt (PathDrawer.body offset) (cs' ++ [last]) (None, y last) t)
      as [st t1] eqn:Hfold.
    intros [= <- <-]. exact (body_frame _ _ _ _ _ _ Hfold).
Qed.

(** X6. [PathDrawer.draw] keeps the cursor visibility and the speed of
    the turtle, keeps every segment drawn before, and adds one segment for
    each pen-down command (none when it raises on the empty path). *)
Theorem draw_only_appends_segments (self : PathDrawer.t) (offset : Vec2D) (t : Turtle.t) :
  Turtle.shown (snd (PathDrawer.draw self offset t)) = Turtle.shown t /\
  Turtle.animation (snd (PathDrawer.draw self offset t)) = Turtle.animation t /\
  exists new,
    Turtle.lines (snd (PathDrawer.draw self offset t)) = Turtle.lines t ++ new /\
    List.length new = List.length (List.filter pendown (PathDrawer.commands self)).
Proof.
  destruct (PathDrawer.draw self offset t) as [r t'] eqn:E.
  exact (draw_frame _ _ _ _ _ E).
Qed.

(** ** DigitDisplay.draw *)

Lemma draw_empty_path (offset : Vec2D) (t : Turtle.t) :
  PathDrawer.draw (PathDrawer.mk []) offset t = (inl IndexError, t).
Proof. reflexivity. Qed.

Lemma draw_path_cases (p : PathDrawer.t) (offset : Vec2D) (t : Turtle.t) :
  (PathDrawer.commands p = [] /\ PathDrawer.draw p offset t = (inl IndexError, t)) \/
  (PathDrawer.commands p <> [] /\ exists r t', PathDrawer.draw p offset t = (inr r, t')).
Proof.
  destruct p as [[| c cs]].
  - left. split; reflexivity.
  - right. split; [discriminate |]. apply draw_path_ok. discriminate.
Qed.

Lemma glyph_loop (x_offset : Q) (global_offset : Vec2D) (paths : list PathDrawer.t) :
  forall (acc : option Q) (t : Turtle.t),
    match foldM (fun max_x path =>
                   (let* v := PathDrawer.draw path (x_offset, snd global_offset) in
                    mret (bump max_x v))%M) paths acc t with
    | (inl e, _) => e = IndexError /\ List.Exists (fun p => PathDrawer.commands p = []) paths
    | (inr m, _) =>
        List.Forall (fun p => PathDrawer.commands p <> []) paths /\
        m = fold_left bump (path_results (x_offset, snd global_offset) paths t) acc
    end.
Proof.
  set (f := fun (max_x : option Q) (path : PathDrawer.t) =>
              (let* v := PathDrawer.draw path (x_offset, snd global_offset) in
               mret (bump max_x v))%M).
  induction paths as [| p ps IH]; intros acc t.
  - cbn. auto.
  - cbn [foldM path_results]. unfold mbind at 1. unfold f at 1. unfold mbind at 1.
    destruct (draw_path_cases p (x_offset, snd global_offset) t)
      as [[Hp ->] | [Hp (r & t' & ->)]].
    + split; [reflexivity | now left].
    + unfold mret at 1, ok. cbv beta iota. specialize (IH (bump acc r) t').
      destruct (foldM f ps (bump acc r) t') as [[e | m] t''].
      * destruct IH as [-> HE]. cbv beta iota. split; [reflexivity | now right].
      * destruct IH as [HF ->]. cbv beta iota. split; [now constructor | reflexivity].
Qed.

Lemma glyph_draw_cases (self : DigitDisplay.t) (x_offset : Q) (global_offset : Vec2D)
    (t : Turtle.t) :
  match DigitDisplay.draw self x_offset global_offset t with
  | (inl e, _) =>
      e = IndexError /\
      List.Exists (fun p => PathDrawer.commands p = []) (DigitDisplay.paths self)
  | (inr r, _) =>
      List.Forall (fun p => PathDrawer.commands p <> []) (DigitDisplay.paths self) /\
      r = or_zero (fold_left bump
                     (path_results (x_offset, snd global_offset)
                        (DigitDisplay.paths self) t) None)
  end.
Proof.
  unfold DigitDisplay.draw. unfold mbind at 1.
  pose proof (glyph_loop x_offset global_offset (DigitDisplay.paths self) None t) as H.
  destruct (foldM _ (DigitDisplay.paths self) None t) as [[e | m] t'].
  - exact H.
  - destruct H as [HF ->]. unfold mret. split; [exact HF | reflexivity].
Qed.

Lemma Forall_Exists_absurd {A} (P : A -> Prop) (l : list A) :
  List.Forall (fun a => ~ P a) l -> List.Exists P l -> False.
Proof.
  intros HF HE. induction HE as [a l Ha | a l _ IH]; inversion HF; subst; auto.
Qed.

(** X8. [DigitDisplay.draw] raises [IndexError] exactly when one of the
    paths has no command. When none is empty it returns 0 for a glyph
    without paths and otherwise the greatest of the values that its paths
    return. *)
Theorem glyph_draw_result (self : DigitDisplay.t) (x_offset : Q) (global_offset : Vec2D)
    (t : Turtle.t) :
  (fst (DigitDisplay.draw self x_offset global_offset t) = inl IndexError <->
   List.Exists (fun p => PathDrawer.commands p = []) (DigitDisplay.paths self)) /\
  (List.Forall (fun p => PathDrawer.commands p <> []) (DigitDisplay.paths self) ->
   exists r,
     fst (DigitDisplay.draw self x_offset global_offset t) = inr r /\
     match DigitDisplay.paths self with
     | [] => r = 0%Q
     | _ => is_maximum r
              (path_results (x_offset, snd global_offset) (DigitDisplay.paths self) t)
     end).
Proof.
  pose proof (glyph_draw_cases self x_offset global_offset t) as H.
  destruct (DigitDisplay.draw self x_offset global_offset t) as [[e | r] t'];
    cbn [fst].
  - destruct H as [-> HE]. split; [split; auto |].
    intros HF. exfalso. exact (Forall_Exists_absurd _ _ HF HE).
  - destruct H as [HF ->]. split.
    + split; [discriminate |]. intros HE. exfalso. exact (Forall_Exists_absurd _ _ HF HE).
    + intros _. eexists. split; [reflexivity |].
      destruct (DigitDisplay.paths self) as [| p ps] eqn:E; [reflexivity |].
      destruct (fold_bump None (path_results (x_offset, snd global_offset) (p :: ps) t))
        as (r & Hr & Hub & w & Hw & Hrw).
      { cbn [seed_values app path_results].
        inversion HF as [| ? ? Hp _]; subst.
        destruct (draw_path_ok p (x_offset, snd global_offset) t Hp) as (v & t1 & ->).
        discriminate. }
      rewrite Hr. cbn [seed_values app] in *. pose proof (or_zero_some r) as Hz. split.
      * intros v Hv. rewrite Hz. now apply Hub.
      * exists w. split; [exact Hw |]. now rewrite Hz.
Qed.

Lemma glyph_draw_result_witness :
  exists r,
    fst (DigitDisplay.draw
           (DigitDisplay.mk
              [PathDrawer.mk [mkPathCommand true false (Some 0%Q) (Some 0%Q);
                              mkPathCommand true true (Some 20%Q) None]] None)
           30 (0, 0)%Q Turtle.fresh) = inr r /\
    is_maximum r
      (path_results (30, snd (0, 0))%Q
         [PathDrawer.mk [mkPathCommand true false (Some 0%Q) (Some 0%Q);
                         mkPathCommand true true (Some 20%Q) None]] Turtle.fresh).
Proof.
  apply (proj2 (glyph_draw_result
                  (DigitDisplay.mk
                     [PathDrawer.mk [mkPathCommand true false (Some 0%Q) (Some 0%Q);
                                     mkPathCommand true true (Some 20%Q) None]] None)
                  30%Q (0, 0)%Q Turtle.fresh)).
  repeat constructor. discriminate.
Defined.

(** ** The digit strip: clearing *)

Lemma keeps_mret {A} (a : A) : keeps (mret a).
Proof. intros t t' r [= <- <-]. repeat split. exists []. now rewrite app_nil_r. Qed.

Lemma keeps_mraise {A} (e : exn) : keeps (@mraise A e).
Proof. intros t t' r [= <- <-]. repeat split. exists []. now rewrite app_nil_r. Qed.

Lemma keeps_mbind {A B} (m : M A) (k : A -> M B) :
  keeps m -> (forall a, keeps (k a)) -> keeps (mbind m k).
Proof.
  intros Hm Hk t t' r. unfold mbind.
  destruct (m t) as [[e | a] t1] eqn:E.
  - intros [= <- <-]. exact (Hm _ _ _ E).
  - intros H. destruct (Hm _ _ _ E) as (Hs & Ha & new & Hl).
    destruct (Hk a _ _ _ H) as (Hs' & Ha' & new' & Hl').
    rewrite Hs', Ha', Hl', Hl, Hs, Ha. repeat split.
    exists (new ++ new'). now rewrite app_assoc.
Qed.

Lemma keeps_foldM {A B} (f : A -> B -> M A) (xs : list B) :
  (forall a b, keeps (f a b)) -> forall acc, keeps (foldM f xs acc).
Proof.
  intros Hf. induction xs as [| b xs IH]; intros acc; cbn [foldM].
  - apply keeps_mret.
  - apply keeps_mbind; auto.
Qed.

Lemma keeps_draw_path (p : PathDrawer.t) (offset : Vec2D) : keeps (PathDrawer.draw p offset).
Proof.
  intros t t' r H.
  destruct (draw_frame _ _ _ _ _ H) as (Hs & Ha & new & Hl & _). eauto.
Qed.

Lemma keeps_draw_glyph (d : DigitDisplay.t) (x_offset : Q) (global_offset : Vec2D) :
  keeps (DigitDisplay.draw d x_offset global_offset).
Proof.
  unfold DigitDisplay.draw. apply keeps_mbind; [| intros; apply keeps_mret].
  apply keeps_foldM. intros a p.
  apply keeps_mbind; [apply keeps_draw_path | intros; apply keeps_mret].
Qed.

Lemma keeps_draw_digit (self : DigitsDisplay.t) (x_offset : Q) (c : ascii) :
  keeps (DigitsDisplay.draw_digit self x_offset c).
Proof.
  unfold DigitsDisplay.draw_digit.
  apply keeps_mbind.
  { destruct (DigitsDisplay.digit_drawers self !! c);
      [apply keeps_mret |].
    destruct (DigitsDisplay.digit_drawers self !! Char.upper c);
      [apply keeps_mret | apply keeps_mraise]. }
  intros k. apply keeps_mbind.
  { destruct (DigitsDisplay.digit_drawers self !! k);
      [apply keeps_mret | apply keeps_mraise]. }
  intros d. apply keeps_mbind; [apply keeps_draw_glyph | intros; apply keeps_mret].
Qed.

(** X11. The outcome of [DigitsDisplay.draw] depends neither on the turtle
    it starts from (it resets it) nor on the second component of [offset];
    behind it the cursor is hidden and the speed is the one of the display,
    also when it raises. *)
Theorem draw_clears_the_display (self : DigitsDisplay.t) (digits_str : string)
    (offset : Vec2D) (t : Turtle.t) :
  (forall (y' : Q) (t0 : Turtle.t),
      DigitsDisplay.draw self digits_str offset t =
      DigitsDisplay.draw self digits_str (fst offset, y') t0) /\
  Turtle.shown (snd (DigitsDisplay.draw self digits_str offset t)) = false /\
  Turtle.animation (snd (DigitsDisplay.draw self digits_str offset t)) =
    Turtle.animation (cleared (DigitsDisplay.speed self)).
Proof.
  split; [intros; reflexivity |].
  rewrite draw_unfold. fold (cleared (DigitsDisplay.speed self)).
  pose proof (keeps_foldM (DigitsDisplay.draw_digit self)
                (list_ascii_of_string digits_str) (keeps_draw_digit self) (fst offset)
                (cleared (DigitsDisplay.speed self))) as H.
  destruct (foldM (DigitsDisplay.draw_digit self) (list_ascii_of_string digits_str)
              (fst offset) (cleared (DigitsDisplay.speed self))) as [[e | v] t'];
    destruct (H _ _ eq_refl) as (Hs & Ha & _); cbn [snd]; auto.
Qed.

(** ** The digit strip: letter case and the glyph table *)

Lemma upper_upper (c : ascii) : Char.upper (Char.upper c) = Char.upper c.
Proof. ascii_cases c; reflexivity. Qed.

(** A character that is no key is drawn as its upper case is. *)
Lemma draw_digit_upper (self : DigitsDisplay.t) (x_offset : Q) (c : ascii) (t : Turtle.t) :
  DigitsDisplay.digit_drawers self !! c = None ->
  DigitsDisplay.draw_digit self x_offset c t =
  DigitsDisplay.draw_digit self x_offset (Char.upper c) t.
Proof.
  intros Hc. unfold DigitsDisplay.draw_digit. unfold mbind at 1 3.
  rewrite Hc, upper_upper.
  destruct (DigitsDisplay.digit_drawers self !! Char.upper c); reflexivity.
Qed.

Lemma foldM_ext {A B} (f : A -> B -> M A) (g : B -> B) (xs : list B) :
  (forall a b t, f a (g b) t = f a b t) ->
  forall acc t, foldM f (map g xs) acc t = foldM f xs acc t.
Proof.
  intros H. induction xs as [| b xs IH]; intros acc t; [reflexivity |].
  cbn [map foldM]. unfold mbind. rewrite H.
  destruct (f acc b t) as [[e | a] t']; auto.
Qed.

Lemma In_DIGIT_CHARS (c : ascii) :
  In c DigitsDisplay.DIGIT_CHARS <->
  existsb (Ascii.eqb c) DigitsDisplay.DIGIT_CHARS = true.
Proof.
  rewrite existsb_exists. split.
  - intros Hc. exists c. split; [exact Hc | apply Ascii.eqb_refl].
  - intros (b & Hb & E). apply Ascii.eqb_eq in E. now subst.
Qed.

(** X12. On a display built by [__init__], a string draws exactly as the
    string with its letters [a-f] in upper case. *)
Theorem lowercase_hex_draws_as_uppercase (font_dir : ascii -> option (list string))
    (scale : Q) (speed : Z) (self : DigitsDisplay.t) (digits_str : string)
    (offset : Vec2D) (t : Turtle.t) :
  DigitsDisplay.__init__ font_dir scale speed = inr self ->
  DigitsDisplay.draw self
    (string_of_list_ascii (map hex_upper (list_ascii_of_string digits_str))) offset t =
  DigitsDisplay.draw self digits_str offset t.
Proof.
  intros Hinit. rewrite !draw_unfold, list_ascii_of_string_of_list_ascii.
  rewrite foldM_ext; [reflexivity |].
  intros a c t0. unfold hex_upper.
  destruct (existsb (Ascii.eqb c) (list_ascii_of_string "abcdef")) eqn:E; [| reflexivity].
  symmetry. apply draw_digit_upper.
  destruct (DigitsDisplay.digit_drawers self !! c) as [d |] eqn:Hd; [| reflexivity].
  exfalso.
  assert (Hin : In c DigitsDisplay.DIGIT_CHARS).
  { apply (proj1 (init_glyphs _ _ _ _ Hinit c)). eauto. }
  apply In_DIGIT_CHARS in Hin. clear - E Hin.
  ascii_cases c; vm_compute in E; vm_compute in Hin; congruence.
Qed.

Lemma lowercase_hex_draws_as_uppercase_witness :
  DigitsDisplay.draw example_display "0X1AF" (0, 0)%Q Turtle.fresh =
  DigitsDisplay.draw example_display "0X1aF" (0, 0)%Q Turtle.fresh.
Proof.
  apply (lowercase_hex_draws_as_uppercase example_font 1%Q 0%Z example_display "0X1aF").
  vm_compute; reflexivity.
Defined.

Lemma mapR_ok {A B} (f : A -> result B) (xs : list A) :
  (exists ys, mapR f xs = inr ys) <-> List.Forall (fun a => exists b, f a = inr b) xs.
Proof.
  induction xs as [| a xs IH]; simpl.
  - split; [constructor | eauto].
  - destruct (f a) as [e | b] eqn:E; simpl.
    + split; [intros [ys [=]] |]. intros H. inversion H as [| ? ? [b Hb] _]; subst.
      congruence.
    + destruct (mapR f xs) as [e | ys]; simpl.
      * split; [intros [? [=]] |]. intros H. inversion H as [| ? ? _ Hxs]; subst.
        destruct (proj2 IH Hxs) as [? [=]].
      * split; [| eauto]. intros _. constructor; [eauto |]. apply IH. eauto.
Qed.

Lemma mapR_Forall2 {A B} (f : A -> result B) (xs : list A) (ys : list B) :
  mapR f xs = inr ys <-> List.Forall2 (fun a b => f a = inr b) xs ys.
Proof.
  revert ys; induction xs as [| a xs IH]; intros ys; simpl.
  - split; [intros [= <-]; constructor | intros H; inversion H; reflexivity].
  - split.
    + intros H. apply rbind_inr in H as (b & Hb & H).
      apply rbind_inr in H as (bs & Hbs & [= <-]). constructor; [exact Hb | now apply IH].
    + intros H. inversion H as [| ? b ? bs Hb Hbs]; subst.
      rewrite Hb. simpl. apply IH in Hbs. rewrite Hbs. reflexivity.
Qed.

Lemma glyph_init_ok (ds : list string) (scale : Q) :
  (exists d, DigitDisplay.__init__ ds scale = inr d) <->
  List.Forall (fun s => exists cs, PathDrawer.parse s scale = inr cs) ds.
Proof.
  unfold DigitDisplay.__init__.
  rewrite <- (mapR_ok (fun s => PathDrawer.parse s scale)).
  assert (H : (exists ps, mapR (fun d => PathDrawer.__init__ d scale) ds = inr ps) <->
              (exists ys, mapR (fun s => PathDrawer.parse s scale) ds = inr ys)).
  { rewrite !mapR_ok. apply list.Forall_iff. intros s. unfold PathDrawer.__init__.
    destruct (PathDrawer.parse s scale) as [e | cs]; simpl;
      [split; intros [? [=]] | split; eauto]. }
  rewrite <- H. destruct (mapR _ ds) as [e | ps]; simpl.
  - split; intros [? [=]].
  - split; eauto.
Qed.

Lemma init_loop_ok (font_dir : ascii -> option (list string)) (scale : Q)
    (chars : list ascii) :
  forall m0 : gmap ascii DigitDisplay.t,
    (exists m,
        foldR (fun (drawers : gmap ascii DigitDisplay.t) char =>
                 match font_dir char with
                 | None => raise FileNotFoundError
                 | Some ds =>
                     (let? d := DigitDisplay.__init__ ds scale in
                      ok (<[char := d]> drawers))%result
                 end) chars m0 = inr m) <->
    List.Forall (loadable font_dir scale) chars.
Proof.
  induction chars as [| c chars IH]; intros m0; simpl.
  - split; [constructor | eauto].
  - destruct (font_dir c) as [ds |] eqn:Hfont; simpl.
    + destruct (DigitDisplay.__init__ ds scale) as [e | d] eqn:Hd; simpl.
      * split; [intros [? [=]] |]. intros H.
        inversion H as [| ? ? (ds' & Hds' & Hall) _]; subst.
        rewrite Hfont in Hds'. injection Hds' as <-.
        apply glyph_init_ok in Hall as [d Hd']. congruence.
      * rewrite IH. split.
        -- intros H. constructor; [| exact H]. exists ds. split; [exact Hfont |].
           apply glyph_init_ok. eauto.
        -- intros H. now inversion H.
    + split; [intros [? [=]] |]. intros H.
      inversion H as [| ? ? (ds' & Hds' & _) _]; subst. congruence.
Qed.

(** X9. [DigitsDisplay.__init__] succeeds exactly when each of the 17
    characters of [DIGIT_CHARS] has a file in the font directory and every
    path of that file parses. *)
Theorem init_succeeds_iff_font_loadable (font_dir : ascii -> option (list string))
    (scale : Q) (speed : Z) :
  (exists self, DigitsDisplay.__init__ font_dir scale speed = inr self) <->
  forall c, In c DigitsDisplay.DIGIT_CHARS -> loadable font_dir scale c.
Proof.
  rewrite <- List.Forall_forall.
  rewrite <- (init_loop_ok font_dir scale DigitsDisplay.DIGIT_CHARS ∅).
  unfold DigitsDisplay.__init__.
  destruct (foldR _ DigitsDisplay.DIGIT_CHARS ∅) as [e | m]; simpl.
  - split; intros [? [=]].
  - split; eauto.
Qed.

(** X10. After [DigitsDisplay.__init__] the display holds the speed and the
    scale it was given, and its table has a glyph exactly for the characters
    of [DIGIT_CHARS]: the one whose paths are the parsed paths of the
    character's file, in the order of the file. *)
Theorem init_table_lookup (font_dir : ascii -> option (list string))
    (scale : Q) (speed : Z) (self : DigitsDisplay.t) :
  DigitsDisplay.__init__ font_dir scale speed = inr self ->
  DigitsDisplay.speed self = speed /\
  DigitsDisplay.scale self = scale /\
  forall (c : ascii) (d : DigitDisplay.t),
    DigitsDisplay.digit_drawers self !! c = Some d <->
    In c DigitsDisplay.DIGIT_CHARS /\
    exists ds, font_dir c = Some ds /\
      List.Forall2 (fun s p => PathDrawer.parse s scale = inr (PathDrawer.commands p))
        ds (DigitDisplay.paths d) /\
      DigitDisplay.next_y d = None.
Proof.
  intros Hinit. pose proof (init_glyphs _ _ _ _ Hinit) as Hg.
  unfold DigitsDisplay.__init__ in Hinit.
  apply rbind_inr in Hinit as (m & _ & [= <-]). cbn [DigitsDisplay.speed DigitsDisplay.scale].
  split; [reflexivity |]. split; [reflexivity |].
  assert (Hglyph : forall ds d, DigitDisplay.__init__ ds scale = inr d <->
            List.Forall2 (fun s p => PathDrawer.parse s scale = inr (PathDrawer.commands p))
              ds (DigitDisplay.paths d) /\ DigitDisplay.next_y d = None).
  { intros ds [ps ny]. unfold DigitDisplay.__init__. cbn [DigitDisplay.paths DigitDisplay.next_y].
    assert (HF : mapR (fun s => PathDrawer.__init__ s scale) ds = inr ps <->
                 List.Forall2 (fun s p => PathDrawer.parse s scale = inr (PathDrawer.commands p)) ds ps).
    { rewrite mapR_Forall2. split; intros H; induction H as [| s p ds' ps' Hsp _ IH];
        constructor; auto.
      - unfold PathDrawer.__init__ in Hsp. apply rbind_inr in Hsp as (cs & Hcs & [= <-]).
        exact Hcs.
      - unfold PathDrawer.__init__. rewrite Hsp. now destruct p. }
    rewrite <- HF. destruct (mapR _ ds) as [e | ps']; simpl.
    - split; [discriminate | intros [[=] _]].
    - split; [intros [= <- <-]; auto | intros [[= <-] <-]; reflexivity]. }
  intros c d. destruct (Hg c) as [Hdom Hval]. split.
  - intros Hd. split; [apply Hdom; eauto |].
    destruct (Hval d Hd) as (ds & Hds & Hd'). exists ds. split; [exact Hds |].
    now apply Hglyph.
  - intros (Hin & ds & Hds & HF).
    apply Hdom in Hin as [d' Hd']. rewrite Hd'. f_equal.
    destruct (Hval d' Hd') as (ds' & Hds' & Hinit').
    rewrite Hds in Hds'. injection Hds' as <-.
    apply Hglyph in HF. congruence.
Qed.

Lemma init_table_lookup_witness :
  DigitsDisplay.speed example_display = 0%Z /\
  DigitsDisplay.scale example_display = 1%Q /\
  forall (c : ascii) (d : DigitDisplay.t),
    DigitsDisplay.digit_drawers example_display !! c = Some d <->
    In c DigitsDisplay.DIGIT_CHARS /\
    exists ds, example_font c = Some ds /\
      List.Forall2 (fun s p => PathDrawer.parse s 1 = inr (PathDrawer.commands p))
        ds (DigitDisplay.paths d) /\
      DigitDisplay.next_y d = None.
Proof.
  apply (init_table_lookup example_font 1%Q 0%Z example_display).
  vm_compute; reflexivity.
Defined.

(** ** The script *)

(** The loop of [DigitsDisplay.draw] on a display whose glyph paths all have
    a command: it runs through when every character is accepted, and stops
    with [ValueError] in front of the first character that is not. *)
Lemma draw_loop (font_dir : ascii -> option (list string)) (scale : Q) (speed : Z)
    (self : DigitsDisplay.t) :
  DigitsDisplay.__init__ font_dir scale speed = inr self ->
  (forall c ds, font_dir c = Some ds -> List.Forall (fun s => Re.findall s <> []) ds) ->
  forall (chars : list ascii) (x_offset : Q) (t : Turtle.t),
    match chars with
    | c :: _ =>
        accepted c = false ->
        foldM (DigitsDisplay.draw_digit self) chars x_offset t = (inl ValueError, t)
    | [] => True
    end /\
    exists t',
      (forallb accepted chars = true ->
       exists v, foldM (DigitsDisplay.draw_digit self) chars x_offset t = (inr v, t')) /\
      (forallb accepted chars = false ->
       foldM (DigitsDisplay.draw_digit self) chars x_offset t = (inl ValueError, t')).
Proof.
  intros Hinit Hfont.
  pose proof (init_glyphs _ _ _ _ Hinit) as Hglyphs.
  assert (Hne : forall a d, DigitsDisplay.digit_drawers self !! a = Some d ->
                  List.Forall (fun p => PathDrawer.commands p <> []) (DigitDisplay.paths d)).
  { intros a d Hd. destruct (proj2 (Hglyphs a) d Hd) as (ds & Hds & Hd').
    exact (init_paths_nonempty ds scale d (Hfont _ _ Hds) Hd'). }
  assert (Hacc : forall c, accepted c = true <->
                   is_Some (DigitsDisplay.digit_drawers self !! c) \/
                   is_Some (DigitsDisplay.digit_drawers self !! Char.upper c)).
  { intros c. rewrite accepted_spec, !(proj1 (Hglyphs _)). reflexivity. }
  assert (Hbad : forall c xo t, accepted c = false ->
                   DigitsDisplay.draw_digit self xo c t = (inl ValueError, t)).
  { intros c xo t Ec. apply draw_digit_invalid.
    - destruct (DigitsDisplay.digit_drawers self !! c) eqn:E; [| reflexivity].
      assert (accepted c = true) by (apply Hacc; left; eauto). congruence.
    - destruct (DigitsDisplay.digit_drawers self !! Char.upper c) eqn:E; [| reflexivity].
      assert (accepted c = true) by (apply Hacc; right; eauto). congruence. }
  induction chars as [| c chars IH]; intros xo t.
  - split; [exact I |]. exists t. split; [intros _; eexists; reflexivity | discriminate].
  - split.
    + intros Ec. cbn [foldM]. unfold mbind. now rewrite Hbad.
    + cbn [foldM forallb]. unfold mbind. destruct (accepted c) eqn:Ec.
      * destruct (draw_digit_valid self xo c t Hne (proj1 (Hacc c) Ec)) as (r & t1 & ->).
        cbn [andb]. destruct (IH r t1) as [_ (t' & H1 & H2)]. eauto.
      * rewrite Hbad by assumption. exists t. split; [discriminate | reflexivity].
Qed.

Lemma hex_digits_accepted (u : Hexadecimal.uint) :
  forallb accepted (list_ascii_of_string (NilEmpty.string_of_uint u)) = true.
Proof. induction u; cbn [NilEmpty.string_of_uint list_ascii_of_string forallb]; auto. Qed.

Lemma hex_chars (z : Z) :
  list_ascii_of_string (Main.hex z) =
  (if (z <? 0)%Z then ["-"%char] else []) ++
  ["0"%char; "x"%char] ++
  list_ascii_of_string (NilZero.string_of_uint (N.to_hex_uint (Z.abs_N z))).
Proof.
  unfold Main.hex. rewrite !list_ascii_of_string_app.
  destruct (z <? 0)%Z; reflexivity.
Qed.

Lemma hex_accepted (z : Z) :
  forallb accepted (list_ascii_of_string (Main.hex z)) = (0 <=? z)%Z.
Proof.
  rewrite hex_chars, !forallb_app.
  assert (H : forallb accepted
                (list_ascii_of_string
                   (NilZero.string_of_uint (N.to_hex_uint (Z.abs_N z)))) = true).
  { unfold NilZero.string_of_uint.
    destruct (N.to_hex_uint (Z.abs_N z)) eqn:E; try (rewrite <- E; apply hex_digits_accepted).
    reflexivity. }
  rewrite H.
  destruct (Z.ltb_spec z 0) as [Hz | Hz]; symmetry.
  - apply Z.leb_gt. exact Hz.
  - apply Z.leb_le. exact Hz.
Qed.

Lemma show_number_cases (font_dir : ascii -> option (list string))
    (scale : Q) (speed : Z) (self : DigitsDisplay.t) (window_width n : Q) (t : Turtle.t) :
  DigitsDisplay.__init__ font_dir scale speed = inr self ->
  (forall c ds, font_dir c = Some ds -> List.Forall (fun s => Re.findall s <> []) ds) ->
  ((0 <= Main.int n)%Z ->
   exists t', Main.show_number self window_width n t = (inr tt, t')) /\
  ((Main.int n < 0)%Z ->
   Main.show_number self window_width n t =
     (inl ValueError, cleared (DigitsDisplay.speed self))).
Proof.
  intros Hinit Hfont. unfold Main.show_number. rewrite draw_unfold.
  fold (cleared (DigitsDisplay.speed self)).
  destruct (draw_loop _ _ _ _ Hinit Hfont (list_ascii_of_string (Main.hex (Main.int n)))
              (fst (Main.x_start window_width, 0%Q)) (cleared (DigitsDisplay.speed self)))
    as [Hfirst (t' & Hok & Hbad)].
  rewrite hex_accepted in Hok, Hbad. split.
  - intros Hn. apply Z.leb_le in Hn. destruct (Hok Hn) as [v ->]. eauto.
  - intros Hneg. rewrite hex_chars in Hfirst.
    destruct (Z.ltb_spec (Main.int n) 0) as [_ | Hge]; [| lia].
    cbn [app] in Hfirst. rewrite hex_chars.
    destruct (Z.ltb_spec (Main.int n) 0) as [_ | Hge]; [| lia].
    cbn [app]. rewrite (Hfirst eq_refl). reflexivity.
Qed.

(** X13. One round of the main loop on a well-formed font: the number is
    drawn when its integer part is at least 0; when it is below 0,
    [hex] starts with a minus sign, [draw] raises [ValueError] and the
    display is left cleared, with nothing drawn. *)
Theorem show_number_fails_below_zero (font_dir : ascii -> option (list string))
    (scale : Q) (speed : Z) (self : DigitsDisplay.t) (window_width n : Q) (t : Turtle.t) :
  DigitsDisplay.__init__ font_dir scale speed = inr self ->
  (forall c ds, font_dir c = Some ds -> List.Forall (fun s => Re.findall s <> []) ds) ->
  fst (Main.show_number self window_width n t) =
    (if (0 <=? Main.int n)%Z then inr tt else inl ValueError) /\
  ((Main.int n < 0)%Z ->
   snd (Main.show_number self window_width n t) = cleared (DigitsDisplay.speed self)).
Proof.
  intros Hinit Hfont.
  destruct (show_number_cases _ _ _ _ window_width n t Hinit Hfont) as [Hok Hbad].
  split.
  - destruct (Z.leb_spec 0 (Main.int n)) as [Hn | Hn].
    + destruct (Hok Hn) as [t' ->]. reflexivity.
    + now rewrite (Hbad Hn).
  - intros Hn. now rewrite (Hbad Hn).
Qed.

Lemma show_number_fails_below_zero_witness :
  fst (Main.show_number example_display 800 (-(5 # 2)) Turtle.fresh) = inl ValueError /\
  ((Main.int (-(5 # 2)) < 0)%Z ->
   snd (Main.show_number example_display 800 (-(5 # 2)) Turtle.fresh) = cleared 0).
Proof.
  apply (show_number_fails_below_zero example_font 1%Q 0%Z example_display 800%Q
           (-(5 # 2))%Q Turtle.fresh).
  - vm_compute; reflexivity.
  - intros c ds [= <-]. repeat constructor. vm_compute; discriminate.
Defined.

(** X14. With [--debug-font] and a well-formed font, drawing the string of
    all [DIGIT_CHARS] raises nothing. *)
Theorem debug_font_draws_every_glyph (font_dir : ascii -> option (list string))
    (scale : Q) (speed : Z) (self : DigitsDisplay.t) (window_width : Q) (t : Turtle.t) :
  DigitsDisplay.__init__ font_dir scale speed = inr self ->
  (forall c ds, font_dir c = Some ds -> List.Forall (fun s => Re.findall s <> []) ds) ->
  fst (Main.debug_font self window_width t) = inr tt.
Proof.
  intros Hinit Hfont. unfold Main.debug_font. rewrite draw_unfold.
  destruct (draw_loop _ _ _ _ Hinit Hfont
              (list_ascii_of_string (string_of_list_ascii DigitsDisplay.DIGIT_CHARS))
              (fst (Main.x_start window_width, 0%Q)) (cleared (DigitsDisplay.speed self)))
    as [_ (t' & Hok & _)].
  fold (cleared (DigitsDisplay.speed self)).
  destruct (Hok eq_refl) as [v ->]. reflexivity.
Qed.

Lemma debug_font_draws_every_glyph_witness :
  fst (Main.debug_font example_display 800 Turtle.fresh) = inr tt.
Proof.
  apply (debug_font_draws_every_glyph example_font 1%Q 0%Z example_display 800%Q
           Turtle.fresh).
  - vm_compute; reflexivity.
  - intros c ds [= <-]. repeat constructor. vm_compute; discriminate.
Defined.

(** X15. The main loop on a well-formed font: after numbers with integer
    part at least 0, a cancelled dialog ends the loop without error, and a
    number below 0 ends it with [ValueError] and a cleared display. *)
Theorem loop_ends_at_cancel_or_below_zero (font_dir : ascii -> option (list string))
    (scale : Q) (speed : Z) (self : DigitsDisplay.t) (window_width : Q)
    (answers rest : list (option Q)) (t : Turtle.t) :
  DigitsDisplay.__init__ font_dir scale speed = inr self ->
  (forall c ds, font_dir c = Some ds -> List.Forall (fun s => Re.findall s <> []) ds) ->
  List.Forall drawable answers ->
  fst (Main.loop self window_width (answers ++ None :: rest) t) = inr tt /\
  forall n, (Main.int n < 0)%Z ->
    Main.loop self window_width (answers ++ Some n :: rest) t =
      (inl ValueError, cleared (DigitsDisplay.speed self)).
Proof.
  intros Hinit Hfont Hans. revert t.
  induction Hans as [| a answers (m & -> & Hm) _ IH]; intros t.
  - split; [reflexivity |]. intros n Hn. cbn [app Main.loop]. unfold mbind.
    destruct (show_number_cases _ _ _ _ window_width n t Hinit Hfont) as [_ Hbad].
    now rewrite (Hbad Hn).
  - cbn [app Main.loop]. unfold mbind.
    destruct (show_number_cases _ _ _ _ window_width m t Hinit Hfont) as [Hok _].
    destruct (Hok Hm) as [t' ->]. apply IH.
Qed.

Lemma loop_ends_at_cancel_or_below_zero_witness :
  fst (Main.loop example_display 800 ([Some 26%Q] ++ None :: [Some 1%Q]) Turtle.fresh)
    = inr tt /\
  forall n, (Main.int n < 0)%Z ->
    Main.loop example_display 800 ([Some 26%Q] ++ Some n :: [Some 1%Q]) Turtle.fresh =
      (inl ValueError, cleared (DigitsDisplay.speed example_display)).
Proof.
  apply (loop_ends_at_cancel_or_below_zero example_font 1%Q 0%Z example_display 800%Q
           [Some 26%Q] [Some 1%Q] Turtle.fresh).
  - vm_compute; reflexivity.
  - intros c ds [= <-]. repeat constructor. vm_compute; discriminate.
  - repeat constructor. exists 26%Q. split; [reflexivity | vm_compute; discriminate].
Defined.

(** ** The parser: scale *)

Section Scale.
Variables k1 k2 : Q.







End Scale.



(** ** The replay: offset *)

Ltac shift_tac :=
  unfold shifted in *; cbn [fst snd] in *;
  repeat match goal with
         | H : _ /\ _ |- _ => destruct H
         | |- _ /\ _ => split
         | |- True => exact I
         end;
  repeat match goal with
         | H : (?a == _)%Q |- context [?a] => rewrite H; clear H
         end;
  try ring.

Lemma move_shift (o : Vec2D) (fpA fpB : option Vec2D) (c : PathCommand)
    (tA tB : Turtle.t) :
  shifted o (Turtle.position tA) (Turtle.position tB) ->
  shifted_opt o fpA fpB ->
  anchored c = true ->
  shifted o (Turtle.position (snd (PathDrawer.move (0, 0)%Q fpA c tA)))
            (Turtle.position (snd (PathDrawer.move o fpB c tB))) /\
  shifted_opt o (fst (PathDrawer.move (0, 0)%Q fpA c tA))
                (fst (PathDrawer.move o fpB c tB)).
Proof.
  intros Hpos Hfp Hc.
  destruct c as [a p [cx |] [cy |]], fpA as [pA |], fpB as [pB |], p, a;
    cbn in Hfp; try contradiction; try discriminate Hc;
    cbn; try exact I; shift_tac.
Qed.

Lemma body_shift (o : Vec2D) (cmds : list PathCommand) :
  forall (stA stB stA' stB' : option Vec2D * option Q) (tA tB tA' tB' : Turtle.t),
    forallb anchored cmds = true ->
    shifted o (Turtle.position tA) (Turtle.position tB) ->
    shifted_opt o (fst stA) (fst stB) ->
    foldSt (PathDrawer.body (0, 0)%Q) cmds stA tA = (stA', tA') ->
    foldSt (PathDrawer.body o) cmds stB tB = (stB', tB') ->
    shifted o (Turtle.position tA') (Turtle.position tB') /\
    exists nA nB,
      Turtle.lines tA' = Turtle.lines tA ++ nA /\
      Turtle.lines tB' = Turtle.lines tB ++ nB /\
      List.Forall2 (shifted_segment o) nA nB.
Proof.
  induction cmds as [| c cs IH];
    intros [fpA mA] [fpB mB] stA' stB' tA tB tA' tB' Hcmds Hpos Hfp.
  - cbn. intros [= <- <-] [= <- <-]. split; [exact Hpos |].
    exists [], []. rewrite !app_nil_r. repeat split. constructor.
  - cbn [forallb] in Hcmds. apply andb_true_iff in Hcmds as [Hc Hcs].
    cbn [fst] in Hfp.
    intros HA HB. cbn [foldSt] in HA, HB.
    unfold bind at 1 in HA. unfold PathDrawer.body at 1 in HA. unfold bind at 1 in HA.
    unfold bind at 1 in HB. unfold PathDrawer.body at 1 in HB. unfold bind at 1 in HB.
    destruct (move_shift o fpA fpB c tA tB Hpos Hfp Hc) as [Hpos1 Hfp1].
    destruct (move_frame (0, 0)%Q fpA c tA) as (_ & _ & HlA).
    destruct (move_frame o fpB c tB) as (_ & _ & HlB).
    destruct (PathDrawer.move (0, 0)%Q fpA c tA) as [fpA1 tA1].
    destruct (PathDrawer.move o fpB c tB) as [fpB1 tB1].
    cbn [fst snd] in *.
    unfold bind at 1 in HA. unfold T.xcor at 1 in HA. unfold ret at 1 in HA.
    unfold bind at 1 in HB. unfold T.xcor at 1 in HB. unfold ret at 1 in HB.
    destruct (IH (fpA1, bump mA (fst (Turtle.position tA1)))
                 (fpB1, bump mB (fst (Turtle.position tB1)))
                 _ _ _ _ _ _ Hcs Hpos1 Hfp1 HA HB) as (Hfin & nA & nB & HA' & HB' & HF).
    split; [exact Hfin |].
    rewrite HA', HB', HlA, HlB, <- !app_assoc.
    eexists _, _. split; [reflexivity |]. split; [reflexivity |].
    destruct (pendown c); cbn [app]; [| exact HF].
    constructor; [| exact HF]. split; assumption.
Qed.

(** X7. For a path of absolute commands that starts with a pen-up move with
    both coordinates and has no [M] without coordinates behind it, the
    segments drawn at an offset are the segments drawn at offset (0,0) moved
    by the offset, whatever the turtles were before; so is the final
    position. Every coordinate reached is then one sum [c + offset] of a
    command's coordinate and the offset, and [c + 0] at offset (0,0), so
    that the statement does not depend on how sums are rounded. A relative
    command adds to the position reached before, and the statement does not
    cover it: in floating point [(a + b) + o] and [a + (b + o)] may differ
    in the last digit. *)
Theorem offset_translates_absolute_paths (x0 y0 : Q) (rest : list PathCommand)
    (o : Vec2D) (tA tB : Turtle.t) :
  forallb anchored rest = true ->
  exists nA nB,
    Turtle.lines
      (snd (PathDrawer.draw
              (PathDrawer.mk (mkPathCommand true false (Some x0) (Some y0) :: rest))
              (0, 0)%Q tA)) = Turtle.lines tA ++ nA /\
    Turtle.lines
      (snd (PathDrawer.draw
              (PathDrawer.mk (mkPathCommand true false (Some x0) (Some y0) :: rest))
              o tB)) = Turtle.lines tB ++ nB /\
    List.Forall2 (shifted_segment o) nA nB /\
    shifted o
      (Turtle.position
         (snd (PathDrawer.draw
                 (PathDrawer.mk (mkPathCommand true false (Some x0) (Some y0) :: rest))
                 (0, 0)%Q tA)))
      (Turtle.position
         (snd (PathDrawer.draw
                 (PathDrawer.mk (mkPathCommand true false (Some x0) (Some y0) :: rest))
                 o tB))).
Proof.
  intros Hrest. set (first := mkPathCommand true false (Some x0) (Some y0)).
  destruct (exists_last (l := first :: rest) ltac:(discriminate)) as (cs & last & E).
  rewrite E.
  unfold PathDrawer.draw, mbind, lift_result, lift, mret. cbn [PathDrawer.commands].
  rewrite index_last, <- E.
  destruct (foldSt (PathDrawer.body (0, 0)%Q) (first :: rest) (None, y last) tA)
    as [stA tA'] eqn:HA.
  destruct (foldSt (PathDrawer.body o) (first :: rest) (None, y last) tB)
    as [stB tB'] eqn:HB.
  cbn [snd].
  cbn [foldSt] in HA, HB. unfold bind at 1 in HA. unfold bind at 1 in HB.
  unfold PathDrawer.body at 1 in HA. unfold PathDrawer.body at 1 in HB.
  cbn in HA, HB.
  match type of HA with
  | foldSt _ _ ?st ?t1 = _ =>
      match type of HB with
      | foldSt _ _ ?st2 ?t2 = _ =>
          destruct (body_shift o rest st st2 stA stB t1 t2 tA' tB' Hrest) as (Hfin & nA & nB & H1 & H2 & HF);
            [ | | exact HA | exact HB | ]
      end
  end.
  - unfold shifted. cbn. split; ring.
  - exact I.
  - cbn in H1, H2. exists nA, nB. auto.
Qed.

Lemma offset_translates_absolute_paths_witness :
  exists nA nB,
    Turtle.lines
      (snd (PathDrawer.draw
              (PathDrawer.mk [mkPathCommand true false (Some 0%Q) (Some 0%Q);
                              mkPathCommand true true (Some 20%Q) None])
              (0, 0)%Q Turtle.fresh)) = Turtle.lines Turtle.fresh ++ nA /\
    Turtle.lines
      (snd (PathDrawer.draw
              (PathDrawer.mk [mkPathCommand true false (Some 0%Q) (Some 0%Q);
                              mkPathCommand true true (Some 20%Q) None])
              (30, 0)%Q Turtle.fresh)) = Turtle.lines Turtle.fresh ++ nB /\
    List.Forall2 (shifted_segment (30, 0)%Q) nA nB /\
    shifted (30, 0)%Q
      (Turtle.position
         (snd (PathDrawer.draw
                 (PathDrawer.mk [mkPathCommand true false (Some 0%Q) (Some 0%Q);
                                 mkPathCommand true true (Some 20%Q) None])
                 (0, 0)%Q Turtle.fresh)))
      (Turtle.position
         (snd (PathDrawer.draw
                 (PathDrawer.mk [mkPathCommand true false (Some 0%Q) (Some 0%Q);
                                 mkPathCommand true true (Some 20%Q) None])
                 (30, 0)%Q Turtle.fresh))).
Proof.
  apply (offset_translates_absolute_paths 0%Q 0%Q
           [mkPathCommand true true (Some 20%Q) None] (30, 0)%Q Turtle.fresh Turtle.fresh).
  reflexivity.
Defined.
